(** * smart-web-summarizer: extraction, recovery and history

    A shallow embedding of the summarize route (whitespace normalisation,
    clamping, readable-text extraction, recovery of the first JSON object,
    result assembly, the POST handler) and of the client-side history
    helpers (loadLocalHistory, upsertByUrl), with the properties stated
    about them.

    JavaScript strings are sequences of UTF-16 code units; indices and
    lengths are integers.  Host facilities (network, HTML parsing, URL
    parsing, the database client) are inputs of the model. *)

From Stdlib Require Import List ZArith NArith Lia Bool String Ascii.
Import ListNotations.
Open Scope Z_scope.

#[local] Set Warnings "-register-all".

(* ================================================================== *)
(** ** JavaScript strings *)
(* ================================================================== *)

Module JS.

(** A UTF-16 code unit. *)
Definition char := N.

Definition str := list char.

(** An ASCII literal as a JavaScript string. *)
Definition lit (s : string) : str :=
  map N_of_ascii (list_ascii_of_string s).

(** [s.length] *)
Definition length (s : str) : Z := Z.of_nat (List.length s).

Definition SP : char := 32%N.
Definition DQUOTE : char := 34%N.
Definition LBRACE : char := 123%N.
Definition RBRACE : char := 125%N.

(** A string literal value in double quotes, as it appears inside JSON text. *)
Definition quoted (s : string) : str := DQUOTE :: lit s ++ [DQUOTE].

(** The characters matched by [\s] in a regular expression, which are also
    the ones stripped by [String.prototype.trim]: WhiteSpace and
    LineTerminator of ECMAScript. *)
Definition is_ws (c : char) : bool :=
  ((9 <=? c) && (c <=? 13) || (c =? 32) || (c =? 160) || (c =? 5760)
   || (8192 <=? c) && (c <=? 8202) || (c =? 8232) || (c =? 8233)
   || (c =? 8239) || (c =? 8287) || (c =? 12288) || (c =? 65279))%N.

(** [s.replace(/\s+/g, " ")]: every maximal run of whitespace becomes one
    space.  [in_run] tells that the previous character was whitespace, so
    the run's replacement has been emitted already. *)
Fixpoint replace_ws_runs (in_run : bool) (s : str) : str :=
  match s with
  | [] => []
  | c :: r =>
      if is_ws c
      then if in_run then replace_ws_runs true r
           else SP :: replace_ws_runs true r
      else c :: replace_ws_runs false r
  end.

Fixpoint trimStart (s : str) : str :=
  match s with
  | [] => []
  | c :: r => if is_ws c then trimStart r else s
  end.

Definition trimEnd (s : str) : str :=
  rev_append (trimStart (rev_append s [])) [].

(** [s.trim()] *)
Definition trim (s : str) : str := trimEnd (trimStart s).

(** [s.slice(b, e)], with the index clamping of the language: a negative
    index counts from the end, and every index is brought into
    [0 .. s.length]. *)
Definition slice (s : str) (b e : Z) : str :=
  let len := length s in
  let from := if b <? 0 then Z.max (len + b) 0 else Z.min b len in
  let to := if e <? 0 then Z.max (len + e) 0 else Z.min e len in
  firstn (Z.to_nat (to - from)) (skipn (Z.to_nat from) s).

(** [s[i]]: [None] stands for [undefined]. *)
Definition at_ (s : str) (i : Z) : option char :=
  if i <? 0 then None else nth_error s (Z.to_nat i).

(** [s.indexOf(c)] for a one-character pattern: the first index, or -1. *)
Fixpoint indexOf (s : str) (c : char) : Z :=
  match s with
  | [] => -1
  | x :: r =>
      if (x =? c)%N then 0
      else let k := indexOf r c in if k <? 0 then -1 else k + 1
  end.

(** [parts.join(sep)] *)
Fixpoint join (sep : str) (parts : list str) : str :=
  match parts with
  | [] => []
  | [p] => p
  | p :: rest => p ++ sep ++ join sep rest
  end.

(** Truthiness of a string: only the empty string is falsy. *)
Definition truthy (s : str) : bool :=
  match s with [] => false | _ :: _ => true end.

(** [a || b] on strings. *)
Definition or_else (a b : str) : str := if truthy a then a else b.

End JS.

Import JS.

(* ================================================================== *)
(** ** Normalizer / Clamper *)
(* ================================================================== *)

Definition normalizeWhitespace (text : str) : str :=
  trim (replace_ws_runs false text).

Definition clamp (text : str) (maxChars : Z) : str :=
  if JS.length text <=? maxChars then text else slice text 0 maxChars.

(** The character budget passed by [scrapeReadableText]. *)
Definition MAX_CHARS : Z := 12000.

(* ================================================================== *)
(** ** JSON values and [JSON.parse] *)
(* ================================================================== *)

Module Json.

(** A value produced by [JSON.parse].  A number is kept as the literal that
    was read: its floating-point value is the host's business (see
    [Number_toString] and [Number_truthy] below).  An object keeps its
    members in insertion order (the language lists integer-like keys
    first; no such key is read here). *)
Inductive value :=
| JNull
| JBool (b : bool)
| JNum (lexeme : str)
| JStr (s : str)
| JArr (items : list value)
| JObj (fields : list (str * value)).

Fixpoint str_eqb (a b : str) : bool :=
  match a, b with
  | [], [] => true
  | x :: a', y :: b' => (x =? y)%N && str_eqb a' b'
  | _, _ => false
  end.

(** Own-property lookup in an object. *)
Fixpoint obj_get (fields : list (str * value)) (k : str) : option value :=
  match fields with
  | [] => None
  | (k', v) :: r => if str_eqb k' k then Some v else obj_get r k
  end.

(** Property definition while parsing: a repeated key keeps its first
    position and takes the last value. *)
Fixpoint obj_set (fields : list (str * value)) (k : str) (v : value)
  : list (str * value) :=
  match fields with
  | [] => [(k, v)]
  | (k', v') :: r =>
      if str_eqb k' k then (k', v) :: r else (k', v') :: obj_set r k v
  end.

(** *** Lexer: one step per code unit *)

Inductive token :=
| TLBrace | TRBrace | TLBracket | TRBracket | TColon | TComma
| TString (s : str) | TNumber (lexeme : str)
| TTrue | TFalse | TNull.

(** Progress inside a number literal: an optional minus sign; then a zero,
    or a non-zero digit followed by digits; then optionally a dot and at
    least one digit; then optionally e or E, an optional sign and at least
    one digit. *)
Inductive numstate :=
| NMinus | NZero | NInt | NDot | NFrac | NExpMark | NExpSign | NExp.

Inductive lexstate :=
| LStart
| LString (acc : str)                      (* inside a string; [acc] reversed *)
| LEscape (acc : str)                      (* after a backslash *)
| LUnicode (acc : str) (n : nat) (v : N)   (* after backslash-u: [n] hex digits, value [v] *)
| LNumber (st : numstate) (acc : str)      (* inside a number; [acc] reversed *)
| LWord (rest : str) (t : token).          (* remaining letters of true, false, null *)

Definition is_json_ws (c : char) : bool :=
  ((c =? 32) || (c =? 9) || (c =? 10) || (c =? 13))%N.

Definition is_digit (c : char) : bool := ((48 <=? c) && (c <=? 57))%N.

Definition hex_value (c : char) : option N :=
  (if (48 <=? c) && (c <=? 57) then Some (c - 48)
   else if (65 <=? c) && (c <=? 70) then Some (c - 55)
   else if (97 <=? c) && (c <=? 102) then Some (c - 87)
   else None)%N.

(** The character denoted by a one-letter escape. *)
Definition unescape (c : char) : option char :=
  (if c =? 34 then Some 34        (* double quote *)
   else if c =? 92 then Some 92   (* backslash *)
   else if c =? 47 then Some 47   (* slash *)
   else if c =? 98 then Some 8    (* b: backspace *)
   else if c =? 102 then Some 12  (* f: form feed *)
   else if c =? 110 then Some 10  (* n: line feed *)
   else if c =? 114 then Some 13  (* r: carriage return *)
   else if c =? 116 then Some 9   (* t: tab *)
   else None)%N.

Definition lex_start (c : char) : option (lexstate * list token) :=
  (if is_json_ws c then Some (LStart, [])
   else if c =? 123 then Some (LStart, [TLBrace])
   else if c =? 125 then Some (LStart, [TRBrace])
   else if c =? 91 then Some (LStart, [TLBracket])
   else if c =? 93 then Some (LStart, [TRBracket])
   else if c =? 58 then Some (LStart, [TColon])
   else if c =? 44 then Some (LStart, [TComma])
   else if c =? 34 then Some (LString [], [])
   else if c =? 45 then Some (LNumber NMinus [c], [])
   else if c =? 48 then Some (LNumber NZero [c], [])
   else if is_digit c then Some (LNumber NInt [c], [])
   else if c =? 116 then Some (LWord (lit "rue") TTrue, [])
   else if c =? 102 then Some (LWord (lit "alse") TFalse, [])
   else if c =? 110 then Some (LWord (lit "ull") TNull, [])
   else None)%N.

(** What a character does to a number in progress: continue in a new
    state, end the literal (the character then starts the next token), or
    make it malformed. *)
Inductive numstep := NumGo (st : numstate) | NumEnd | NumBad.

Definition num_step (st : numstate) (c : char) : numstep :=
  let is_e := ((c =? 101) || (c =? 69))%N in
  let is_dot := (c =? 46)%N in
  let is_sign := ((c =? 43) || (c =? 45))%N in
  match st with
  | NMinus => if (c =? 48)%N then NumGo NZero
              else if is_digit c then NumGo NInt else NumBad
  | NZero => if is_dot then NumGo NDot
             else if is_e then NumGo NExpMark else NumEnd
  | NInt => if is_digit c then NumGo NInt
            else if is_dot then NumGo NDot
            else if is_e then NumGo NExpMark else NumEnd
  | NDot => if is_digit c then NumGo NFrac else NumBad
  | NFrac => if is_digit c then NumGo NFrac
             else if is_e then NumGo NExpMark else NumEnd
  | NExpMark => if is_sign then NumGo NExpSign
                else if is_digit c then NumGo NExp else NumBad
  | NExpSign => if is_digit c then NumGo NExp else NumBad
  | NExp => if is_digit c then NumGo NExp else NumEnd
  end.

Definition lex_step (st : lexstate) (c : char)
  : option (lexstate * list token) :=
  match st with
  | LStart => lex_start c
  | LString acc =>
      if (c =? 34)%N then Some (LStart, [TString (rev acc)])
      else if (c =? 92)%N then Some (LEscape acc, [])
      else if (c <? 32)%N then None
      else Some (LString (c :: acc), [])
  | LEscape acc =>
      if (c =? 117)%N then Some (LUnicode acc 0 0%N, [])
      else match unescape c with
           | Some u => Some (LString (u :: acc), [])
           | None => None
           end
  | LUnicode acc n v =>
      match hex_value c with
      | None => None
      | Some d =>
          let v' := (v * 16 + d)%N in
          if Nat.eqb n 3 then Some (LString (v' :: acc), [])
          else Some (LUnicode acc (S n) v', [])
      end
  | LNumber ns acc =>
      match num_step ns c with
      | NumGo ns' => Some (LNumber ns' (c :: acc), [])
      | NumBad => None
      | NumEnd =>
          match lex_start c with
          | Some (st', toks) => Some (st', TNumber (rev acc) :: toks)
          | None => None
          end
      end
  | LWord rest t =>
      match rest with
      | [] => None
      | x :: rest' =>
          if (c =? x)%N
          then match rest' with
               | [] => Some (LStart, [t])
               | _ :: _ => Some (LWord rest' t, [])
               end
          else None
      end
  end.

(** End of input: only whitespace or a complete number may be pending. *)
Definition lex_end (st : lexstate) : option (list token) :=
  match st with
  | LStart => Some []
  | LNumber (NZero | NInt | NFrac | NExp) acc => Some [TNumber (rev acc)]
  | _ => None
  end.

Fixpoint lex (st : lexstate) (s : str) : option (list token) :=
  match s with
  | [] => lex_end st
  | c :: r =>
      match lex_step st c with
      | None => None
      | Some (st', toks) =>
          match lex st' r with
          | None => None
          | Some more => Some (toks ++ more)
          end
      end
  end.

(** *** Parser: a stack of open containers *)

Inductive frame :=
| FArr (acc : list value)                   (* open array, elements so far *)
| FObj (acc : list (str * value))           (* open object, awaiting a key or its end *)
| FKey (acc : list (str * value)) (k : str). (* open object, key read, awaiting its value *)

Inductive expect :=
| EValue          (* a value *)
| EValueOrClose   (* just after '[' *)
| EKeyOrClose     (* just after '{' *)
| EKey            (* after ',' in an object *)
| EColon          (* after a key *)
| EAfter          (* after a value inside a container *)
| EDone (v : value).

(** A completed value goes to the innermost open container, or is the result. *)
Definition deliver (v : value) (stack : list frame)
  : option (expect * list frame) :=
  match stack with
  | [] => Some (EDone v, [])
  | FArr acc :: st => Some (EAfter, FArr (acc ++ [v]) :: st)
  | FKey acc k :: st => Some (EAfter, FObj (obj_set acc k v) :: st)
  | FObj _ :: _ => None
  end.

Definition start_value (t : token) (stack : list frame)
  : option (expect * list frame) :=
  match t with
  | TLBracket => Some (EValueOrClose, FArr [] :: stack)
  | TLBrace => Some (EKeyOrClose, FObj [] :: stack)
  | TString s => deliver (JStr s) stack
  | TNumber l => deliver (JNum l) stack
  | TTrue => deliver (JBool true) stack
  | TFalse => deliver (JBool false) stack
  | TNull => deliver JNull stack
  | _ => None
  end.

Definition close_array (stack : list frame) : option (expect * list frame) :=
  match stack with
  | FArr acc :: st => deliver (JArr acc) st
  | _ => None
  end.

Definition close_object (stack : list frame) : option (expect * list frame) :=
  match stack with
  | FObj acc :: st => deliver (JObj acc) st
  | _ => None
  end.

Definition read_key (t : token) (stack : list frame)
  : option (expect * list frame) :=
  match t, stack with
  | TString k, FObj acc :: st => Some (EColon, FKey acc k :: st)
  | _, _ => None
  end.

Definition parse_step (e : expect) (stack : list frame) (t : token)
  : option (expect * list frame) :=
  match e with
  | EValue => start_value t stack
  | EValueOrClose =>
      match t with TRBracket => close_array stack | _ => start_value t stack end
  | EKeyOrClose =>
      match t with TRBrace => close_object stack | _ => read_key t stack end
  | EKey => read_key t stack
  | EColon => match t with TColon => Some (EValue, stack) | _ => None end
  | EAfter =>
      match t with
      | TComma =>
          match stack with
          | FArr _ :: _ => Some (EValue, stack)
          | FObj _ :: _ => Some (EKey, stack)
          | _ => None
          end
      | TRBracket => close_array stack
      | TRBrace => close_object stack
      | _ => None
      end
  | EDone _ => None
  end.

Fixpoint parse_tokens (e : expect) (stack : list frame) (ts : list token)
  : option value :=
  match ts with
  | [] => match e with EDone v => Some v | _ => None end
  | t :: r =>
      match parse_step e stack t with
      | None => None
      | Some (e', stack') => parse_tokens e' stack' r
      end
  end.

(** [JSON.parse(text)]: [None] stands for the SyntaxError it throws. *)
Definition JSON_parse (text : str) : option value :=
  match lex LStart text with
  | None => None
  | Some ts => parse_tokens EValue [] ts
  end.

End Json.

Import Json.

(* ================================================================== *)
(** ** Thrown values and results *)
(* ================================================================== *)

(** The message of an Error.  Each constructor stands for the text written
    beside it; an interpolated status or response text is an argument. *)
Inductive message :=
| ParametreUrlManquant            (* Paramètre url manquant *)
| UrlInvalide                     (* URL invalide *)
| AucunContenu                    (* Aucun contenu exploitable sur la page *)
| EchecChargement (status : Z)    (* Échec du chargement de la page (status) *)
| CleManquante                    (* MISTRAL_API_KEY manquant *)
| ErreurMistral (status : Z) (errText : str)  (* Erreur Mistral: status errText *)
| ReponseVide                     (* Réponse Mistral vide *)
| JsonIntrouvable                 (* JSON introuvable dans la réponse du modèle *)
| JsonInvalide                    (* Impossible d'extraire un objet JSON valide *)
| ErreurServeur                   (* Erreur serveur *)
| EngineTypeError                 (* the engine's text for a TypeError *)
| EngineSyntaxError               (* the engine's text for a SyntaxError *)
| HostMessage (text : str).       (* the text a collaborator gave its error *)

(** What a [throw] or a rejected promise carries: an Error with its
    message, or a value that is not an instance of Error. *)
Inductive thrown :=
| Error_ (m : message)
| NonError.

Inductive result (A : Type) :=
| Ok (a : A)
| Throw (e : thrown).

Arguments Ok {A} a.
Arguments Throw {A} e.

Definition bind {A B} (m : result A) (k : A -> result B) : result B :=
  match m with
  | Ok a => k a
  | Throw e => Throw e
  end.

Notation "x <- m ;; k" := (bind m (fun x => k))
  (at level 61, m at next level, right associativity).

(** [try { m } catch (e) { h e }] *)
Definition try_catch {A} (m : result A) (h : thrown -> result A) : result A :=
  match m with
  | Ok a => Ok a
  | Throw e => h e
  end.

(** [items.map(f)] for a callback that may throw: the entries are visited
    in order, and the first throw ends the call. *)
Definition traverse {A B} (f : A -> result B) : list A -> result (list B) :=
  fix visit (l : list A) : result (list B) :=
    match l with
    | [] => Ok []
    | x :: r => y <- f x ;; ys <- visit r ;; Ok (y :: ys)
    end.

(* ================================================================== *)
(** ** Property access and coercions on parsed values *)
(* ================================================================== *)

(** [v?.k] for the property names this program reads (url, choices,
    message, content, title, summary_points): an object answers with its
    own member; null and undefined short-circuit; strings, numbers,
    booleans and arrays have no property of these names.  [None] stands
    for [undefined]. *)
Definition prop (v : option value) (k : string) : option value :=
  match v with
  | Some (JObj fields) => obj_get fields (lit k)
  | _ => None
  end.

(** [v?.[0]] *)
Definition index0 (v : option value) : option value :=
  match v with
  | Some (JArr items) => nth_error items 0
  | Some (JObj fields) => obj_get fields (lit "0")
  | Some (JStr (c :: _)) => Some (JStr [c])
  | _ => None
  end.

(** [String(v)].  [num] renders a number literal's value.  An array is
    its entries joined with commas, a null entry counting as empty.  An
    object without a member named toString of its own answers through the
    inherited method; with such a member, which is never a function, the
    conversion falls back on valueOf, which is either an own member (not a
    function either) or the inherited one (which answers the object
    itself): a TypeError. *)
Fixpoint String_ (num : str -> str) (v : value) : result str :=
  match v with
  | JNull => Ok (lit "null")
  | JBool true => Ok (lit "true")
  | JBool false => Ok (lit "false")
  | JNum l => Ok (num l)
  | JStr s => Ok s
  | JArr items =>
      parts <- traverse
                 (fun x => match x with JNull => Ok [] | _ => String_ num x end)
                 items ;;
      Ok (join (lit ",") parts)
  | JObj fields =>
      match obj_get fields (lit "toString") with
      | Some _ => Throw (Error_ EngineTypeError)
      | None => Ok (lit "[object Object]")
      end
  end.

(** Truthiness of [v]; [num_truthy] tells whether a number literal's value
    is non-zero. *)
Definition value_truthy (num_truthy : str -> bool) (v : option value) : bool :=
  match v with
  | None | Some JNull => false
  | Some (JBool b) => b
  | Some (JNum l) => num_truthy l
  | Some (JStr s) => truthy s
  | Some (JArr _) | Some (JObj _) => true
  end.

(* ================================================================== *)
(** ** RecoveringParser: extractFirstJsonObject *)
(* ================================================================== *)

(** The [for] loop of [extractFirstJsonObject]; [n] is the number of
    iterations left, [input.length - i]. *)
Fixpoint scan_balanced (input : str) (start : Z) (n : nat) (i : Z) (depth : Z)
  : result value :=
  match n with
  | O => Throw (Error_ JsonInvalide)
  | S n' =>
      let ch := at_ input i in
      let depth :=
        match ch with
        | Some c => if (c =? LBRACE)%N then depth + 1
                    else if (c =? RBRACE)%N then depth - 1
                    else depth
        | None => depth
        end in
      if depth =? 0 then
        match JSON_parse (slice input start (i + 1)) with
        | Some v => Ok v
        | None => scan_balanced input start n' (i + 1) depth
        end
      else scan_balanced input start n' (i + 1) depth
  end.

Definition extractFirstJsonObject (input : str) : result value :=
  match JSON_parse input with
  | Some v => Ok v
  | None =>
      let start := indexOf input LBRACE in
      if start =? -1 then Throw (Error_ JsonIntrouvable)
      else scan_balanced input start
             (Z.to_nat (JS.length input - start)) start 0
  end.

(** Net brace depth of a text: opening braces minus closing braces. *)
Fixpoint brace_depth (s : str) : Z :=
  match s with
  | [] => 0
  | c :: r =>
      (if (c =? LBRACE)%N then 1 else if (c =? RBRACE)%N then -1 else 0)
      + brace_depth r
  end.

(* ================================================================== *)
(** ** Documents and selectors *)
(* ================================================================== *)

(** A parsed document, as [cheerio.load] hands it over.  Tag names are in
    lower case, as the HTML parser leaves them.  [Comment] stands for the
    nodes that carry data and no text (comments, the doctype).  [Document]
    is the nested document the parser puts under a template element to
    hold its content; the document itself is the list of its top-level
    nodes. *)
Inductive node :=
| Text (data : str)
| Comment (data : str)
| Element (tag : str) (children : list node)
| Document (children : list node).

(** [$(el).text()]: the text nodes below [el], concatenated; the content
    of a template is part of it. *)
Fixpoint text (n : node) : str :=
  match n with
  | Text d => d
  | Comment _ => []
  | Element _ children => flat_map text children
  | Document children => flat_map text children
  end.

(** A type selector with descendant combinators: [article p] has scope
    [article] and target [p]; a bare [p] has an empty scope. *)
Record selector := { scope : list string; target : string }.

(** The scope's tags occur, in this order, among the ancestors' tags
    (outermost first). *)
Fixpoint scope_matches (sc : list string) (ancestors : list str) : bool :=
  match ancestors with
  | [] => match sc with [] => true | _ :: _ => false end
  | a :: anc' =>
      match sc with
      | [] => true
      | t :: sc' =>
          if str_eqb (lit t) a then scope_matches sc' anc'
          else scope_matches sc anc'
      end
  end.

Definition matches (ancestors : list str) (tag : str) (sel : selector) : bool :=
  str_eqb (lit (target sel)) tag && scope_matches (scope sel) ancestors.

(** [$(group).toArray()] below one node: the elements matched by any
    selector of the group, once each, in document order.  The search goes
    through the content of a template, but the ancestors of an element are
    looked up from parent to parent only as long as the parent is an
    element: those of an element inside a template's content end at the
    nested document. *)
Fixpoint select_in (group : list selector) (ancestors : list str) (n : node)
  : list node :=
  match n with
  | Element tag children =>
      (if existsb (matches ancestors tag) group then [n] else [])
      ++ flat_map (select_in group (ancestors ++ [tag])) children
  | Document children => flat_map (select_in group []) children
  | _ => []
  end.

Definition select (group : list selector) (doc : list node) : list node :=
  flat_map (select_in group []) doc.

Definition within (region tag : string) : selector :=
  {| scope := [region]; target := tag |}.

Definition anywhere (tag : string) : selector :=
  {| scope := []; target := tag |}.

(** "article p, article h1, article h2, article li" *)
Definition ARTICLE_SELECTOR : list selector :=
  [within "article" "p"; within "article" "h1";
   within "article" "h2"; within "article" "li"].

(** "main p, main li" *)
Definition MAIN_SELECTOR : list selector :=
  [within "main" "p"; within "main" "li"].

(** "p" *)
Definition PARA_SELECTOR : list selector := [anywhere "p"].

(** The separator given to [join]: a space and a line feed. *)
Definition SEPARATOR : str := [32; 10]%N.

(** [$(group).toArray().map((el) => $(el).text()).join(" \n")] *)
Definition candidate (group : list selector) (doc : list node) : str :=
  join SEPARATOR (map text (select group doc)).

(** The part of [scrapeReadableText] that follows [cheerio.load]. *)
Definition readableText (doc : list node) : str :=
  let articleText := candidate ARTICLE_SELECTOR doc in
  let mainText := candidate MAIN_SELECTOR doc in
  let paraText := candidate PARA_SELECTOR doc in
  let raw := or_else (or_else articleText mainText) paraText in
  let normalized := normalizeWhitespace raw in
  clamp normalized MAX_CHARS.

(** Every element of a document, in document order, with the tags of its
    ancestors (outermost first) up to the root of the document it is in:
    the whole document, or the content of the nearest enclosing
    template. *)
Fixpoint elements_in (ancestors : list str) (n : node) : list (list str * node) :=
  match n with
  | Element tag children =>
      (ancestors, n) :: flat_map (elements_in (ancestors ++ [tag])) children
  | Document children => flat_map (elements_in []) children
  | _ => []
  end.

Definition elements (doc : list node) : list (list str * node) :=
  flat_map (elements_in []) doc.

Definition tag_of (n : node) : str :=
  match n with Element tag _ => tag | _ => [] end.

(** An element with one of the [tags], below an element with tag [region]. *)
Definition tagged_within (region : string) (tags : list string)
           (e : list str * node) : bool :=
  existsb (fun t => str_eqb (lit t) (tag_of (snd e))) tags
  && existsb (str_eqb (lit region)) (fst e).

Definition tagged (tags : list string) (e : list str * node) : bool :=
  existsb (fun t => str_eqb (lit t) (tag_of (snd e))) tags.


(* ================================================================== *)
(** ** The world around the route handler *)
(* ================================================================== *)

(** [new URL(s)]: the two members the handler reads. *)
Record URL := { protocol : str; href : str }.

(** A fetch Response: [ok], [status], and what reading the body as text or
    as JSON gives. *)
Record Response := {
  ok : bool;
  status : Z;
  body_text : result str;
  body_json : result value
}.

(** The object given to [insert]. *)
Record Payload := { original_url : str; p_title : str; p_summary : str }.

(** The row selected back: id, original_url, title, summary, created_at. *)
Record Row := {
  row_id : Z;
  row_original_url : str;
  row_title : str;
  row_summary : option str;      (* [None] is null *)
  row_created_at : str
}.

(** [{ data, error }] of the database client. *)
Record InsertReply := { data : option Row; error : option str }.

(** Everything the handler obtains from outside during one invocation.
    A rejected promise or a thrown exception is a [Throw]. *)
Record World := {
  req_json : result value;                     (* req.json() *)
  URL_new : str -> option URL;                 (* new URL(s); None when it throws *)
  fetch_page : str -> result Response;         (* fetch(targetUrl, ...), the abort on time-out included *)
  cheerio_load : str -> list node;             (* cheerio.load(html) *)
  MISTRAL_API_KEY : option str;                (* process.env.MISTRAL_API_KEY *)
  fetch_mistral : str -> result Response;      (* fetch(MISTRAL_API_URL, ...) for a given text *)
  supabase_insert : Payload -> result InsertReply;
  JSON_stringify : value -> str;
  Number_toString : str -> str;                (* String(n) of a number literal's value *)
  Number_truthy : str -> bool                  (* whether that value is neither 0 nor NaN *)
}.

(* ================================================================== *)
(** ** The summarize route *)
(* ================================================================== *)

Definition scrapeReadableText (w : World) (targetUrl : str) : result str :=
  res <- fetch_page w targetUrl ;;
  if negb (ok res) then Throw (Error_ (EchecChargement (status res)))
  else
    html <- body_text res ;;
    Ok (readableText (cheerio_load w html)).

(** The placeholder title, Résumé. *)
Definition DEFAULT_TITLE : str := [82; 233; 115; 117; 109; 233]%N.

(** [typeof parsed?.title === "string" ? parsed.title : DEFAULT_TITLE] *)
Definition assemble_title (parsed : value) : str :=
  match prop (Some parsed) "title" with
  | Some (JStr s) => s
  | _ => DEFAULT_TITLE
  end.

(** [Array.isArray(pointsRaw) ? pointsRaw.map((p) => String(p)).slice(0, 3) : []]:
    every entry is converted before the first three are kept. *)
Definition assemble_points (num : str -> str) (pointsRaw : option value)
  : result (list str) :=
  match pointsRaw with
  | Some (JArr items) =>
      coerced <- traverse (String_ num) items ;;
      Ok (firstn 3 coerced)
  | _ => Ok []
  end.

(** The two values computed by the last statements of
    [summarizeWithMistral]: the title, and the points, whose computation
    may throw. *)
Definition assemble (num : str -> str) (parsed : value)
  : str * result (list str) :=
  (assemble_title parsed,
   assemble_points num (prop (Some parsed) "summary_points")).

Definition is_lbrace_string (v : value) : bool :=
  match v with
  | JStr [c] => (c =? LBRACE)%N
  | _ => false
  end.

(** [extractFirstJsonObject(content)] for a truthy [content] of any kind.
    The declared type is string.  For another value [JSON.parse] first
    turns its argument into a string, inside the [try] that swallows
    whatever is thrown; if that conversion or the parse fails, a number, a
    boolean or an object has no [indexOf], which is a TypeError; an array
    has one, finds an element equal to the opening brace or not, and every
    slice it then tries reads as an opening brace followed by a comma,
    which never parses. *)
Definition extractFirstJsonObject_any (num : str -> str) (content : value)
  : result value :=
  match content with
  | JStr s => extractFirstJsonObject s
  | _ =>
      match match String_ num content with
            | Ok text => JSON_parse text
            | Throw _ => None
            end with
      | Some v => Ok v
      | None =>
          match content with
          | JArr items =>
              if existsb is_lbrace_string items
              then Throw (Error_ JsonInvalide)
              else Throw (Error_ JsonIntrouvable)
          | _ => Throw (Error_ EngineTypeError)
          end
      end
  end.

Definition summarizeWithMistral (w : World) (text : str)
  : result (str * list str) :=
  match MISTRAL_API_KEY w with
  | None | Some [] => Throw (Error_ CleManquante)
  | Some (_ :: _) =>
      res <- fetch_mistral w text ;;
      if negb (ok res) then
        let errText :=
          match body_text res with Ok t => t | Throw _ => [] end in
        Throw (Error_ (ErreurMistral (status res) errText))
      else
        data <- body_json res ;;
        let content :=
          prop (prop (index0 (prop (Some data) "choices")) "message") "content" in
        match content with
        | Some c =>
            if value_truthy (Number_truthy w) content then
              parsed <- extractFirstJsonObject_any (Number_toString w) c ;;
              let assembled := assemble (Number_toString w) parsed in
              summary_points <- snd assembled ;;
              Ok (fst assembled, summary_points)
            else Throw (Error_ ReponseVide)
        | None => Throw (Error_ ReponseVide)
        end
  end.

(** The success body, which is also the shape of a history entry. *)
Record Summary := {
  id : Z;
  url : str;
  title : str;
  bullets : list str;
  created_at : str
}.

Inductive Body :=
| ErrorBody (error : message)      (* { error: message } *)
| SummaryBody (s : Summary).

(** [NextResponse.json(body, { status })] *)
Record HttpResponse := { body : Body; http_status : Z }.

Definition json (b : Body) (st : Z) : HttpResponse :=
  {| body := b; http_status := st |}.

(** [/^https?:$/.test(protocol)] *)
Definition is_http (protocol : str) : bool :=
  str_eqb protocol (lit "http:") || str_eqb protocol (lit "https:").

(** [parsed = new URL(inputUrl)] with the protocol test, inside their
    [try]: [None] when either throws. *)
Definition parse_http_url (w : World) (inputUrl : str) : option URL :=
  match URL_new w inputUrl with
  | Some u => if is_http (protocol u) then Some u else None
  | None => None
  end.

(** The payload handed to the database client. *)
Definition make_payload (w : World) (parsed : URL) (title : str)
           (summary_points : list str) : Payload :=
  {| original_url := href parsed;
     p_title := title;
     p_summary :=
       JSON_stringify w
         (JObj [(lit "summary_points", JArr (map JStr summary_points))]) |}.

(** The bullets of the response, read back from the stored row inside
    their own [try]; [inserted] is [data] of the reply. *)
Definition response_bullets (w : World) (inserted : option Row) : list str :=
  match inserted with
  | None => []
  | Some row =>
      let stored :=
        match row_summary row with Some s => s | None => lit "{}" end in
      match JSON_parse stored with
      | None => []
      | Some summaryObj =>
          match assemble_points (Number_toString w)
                                (prop (Some summaryObj) "summary_points") with
          | Ok points => points
          | Throw _ => []
          end
      end
  end.

(** What follows the URL checks in the body of [POST]'s [try]. *)
Definition summarize_and_store (w : World) (parsed : URL)
  : result HttpResponse :=
  text <- scrapeReadableText w (href parsed) ;;
  if negb (truthy text) then Ok (json (ErrorBody AucunContenu) 422)
  else
    ts <- summarizeWithMistral w text ;;
    let payload := make_payload w parsed (fst ts) (snd ts) in
    reply <- supabase_insert w payload ;;
    match error reply with
    | Some msg => Ok (json (ErrorBody (HostMessage msg)) 500)
    | None =>
        let bullets := response_bullets w (data reply) in
        match data reply with
        | None => Throw (Error_ EngineTypeError)
        | Some inserted =>
            Ok (json (SummaryBody
                        {| id := row_id inserted;
                           url := row_original_url inserted;
                           title := row_title inserted;
                           bullets := bullets;
                           created_at := row_created_at inserted |})
                     200)
        end
    end.

(** The body of [POST]'s [try]. *)
Definition POST_try (w : World) : result HttpResponse :=
  let body := match req_json w with Ok v => v | Throw _ => JObj [] end in
  match prop (Some body) "url" with
  | None | Some JNull =>
      (* inputUrl is undefined *)
      Ok (json (ErrorBody ParametreUrlManquant) 400)
  | Some (JStr s) =>
      let inputUrl := trim s in
      if negb (truthy inputUrl)
      then Ok (json (ErrorBody ParametreUrlManquant) 400)
      else match parse_http_url w inputUrl with
           | None => Ok (json (ErrorBody UrlInvalide) 400)
           | Some parsed => summarize_and_store w parsed
           end
  | Some _ =>
      (* a value without a trim method: calling it is a TypeError *)
      Throw (Error_ EngineTypeError)
  end.

Definition POST (w : World) : result HttpResponse :=
  try_catch (POST_try w)
    (fun e =>
       let message :=
         match e with Error_ m => m | NonError => ErreurServeur end in
       Ok (json (ErrorBody message) 500)).

(* ================================================================== *)
(** ** Client-side history *)
(* ================================================================== *)

(** What the page finds when it looks for its stored history: no window
    (rendering on the server), or a [localStorage.getItem] that throws or
    answers null or a text. *)
Inductive Storage :=
| NoWindow
| Window (getItem : result (option str)).

(** The body of [loadLocalHistory]'s [try].  The entries are whatever the
    stored array holds: the cast to [Summary[]] checks nothing. *)
Definition loadLocalHistory_try (st : Storage) : result (list value) :=
  raw <- match st with
         | NoWindow => Ok None
         | Window getItem => getItem
         end ;;
  parsed <- match raw with
            | Some (c :: r) =>
                match JSON_parse (c :: r) with
                | Some v => Ok v
                | None => Throw (Error_ EngineSyntaxError)
                end
            | _ => Ok (JArr [])
            end ;;
  match parsed with
  | JArr items => Ok items
  | _ => Ok []
  end.

Definition loadLocalHistory (st : Storage) : result (list value) :=
  try_catch (loadLocalHistory_try st) (fun _ => Ok []).

Definition removeFromHistory (items : list Summary) (entry_id : Z)
           (entry_url : str) : list Summary :=
  filter (fun i => negb ((id i =? entry_id) && str_eqb (url i) entry_url))
         items.

Definition upsertByUrl (items : list Summary) (entry : Summary)
  : list Summary :=
  let without := filter (fun i => negb (str_eqb (url i) (url entry))) items in
  entry :: without.

(* ================================================================== *)
(** ** Vocabulary of the statements *)
(* ================================================================== *)

(** The maximal runs of non-whitespace characters of a text, in order;
    [cur] is the run being read. *)
Fixpoint words_from (cur : str) (s : str) : list str :=
  match s with
  | [] => match cur with [] => [] | _ :: _ => [cur] end
  | c :: r =>
      if is_ws c
      then match cur with
           | [] => words_from [] r
           | _ :: _ => cur :: words_from [] r
           end
      else words_from (cur ++ [c]) r
  end.

Definition words (s : str) : list str := words_from [] s.

(** [out] is a prefix of [s]. *)
Definition prefix_of (out s : str) : Prop := exists rest, s = out ++ rest.

(** The candidate [input.slice(start, j + 1)] is tried and parses to [v]:
    [j] is inside the text, the braces from [start] to [j] balance, and
    the slice is valid JSON. *)
Definition closes_at (input : str) (start j : Z) (v : value) : Prop :=
  start <= j < JS.length input
  /\ brace_depth (slice input start (j + 1)) = 0
  /\ JSON_parse (slice input start (j + 1)) = Some v.

(** At [k] the scan finds nothing: if the braces balance there, the slice
    does not parse. *)
Definition fails_at (input : str) (start k : Z) : Prop :=
  brace_depth (slice input start (k + 1)) = 0 ->
  JSON_parse (slice input start (k + 1)) = None.

(** The request body as the handler sees it, and the value of its [url]. *)
Definition request_body (w : World) : value :=
  match req_json w with Ok v => v | Throw _ => JObj [] end.

Definition submitted_url (w : World) : option value :=
  prop (Some (request_body w)) "url".

(** The message the handler's [catch] reports for a thrown value. *)
Definition message_of (e : thrown) : message :=
  match e with Error_ m => m | NonError => ErreurServeur end.

(** The client-error, unprocessable and server-error statuses. *)
Definition is_failure_status (st : Z) : Prop := st = 400 \/ st = 422 \/ st = 500.

(** An error body goes with a failure status, a summary with 200. *)
Definition status_fits (r : HttpResponse) : Prop :=
  match body r with
  | ErrorBody _ => is_failure_status (http_status r)
  | SummaryBody _ => http_status r = 200
  end.

(** The database returns the address it was given. *)
Definition stores_url (w : World) : Prop :=
  forall p reply row,
    supabase_insert w p = Ok reply -> data reply = Some row ->
    row_original_url row = original_url p.

(** No two entries of a history share a url. *)
Definition unique_urls (items : list Summary) : Prop := NoDup (map url items).

(** *** Sample inputs *)

Module Sample.

(** The completion text: Sure! followed by an object with title A and
    summary_points x and y, followed by Hope that helps! *)
Definition completion : str :=
  lit "Sure! {" ++ quoted "title" ++ lit ":" ++ quoted "A" ++ lit ","
  ++ quoted "summary_points" ++ lit ":[" ++ quoted "x" ++ lit ","
  ++ quoted "y" ++ lit "]} Hope that helps!".

Definition completion_object : value :=
  JObj [(lit "title", JStr (lit "A"));
        (lit "summary_points", JArr [JStr (lit "x"); JStr (lit "y")])].

(** A URL parser that knows one site, with and without its final slash. *)
Definition one_site (s : str) : option URL :=
  if str_eqb s (lit "https://example.com")
     || str_eqb s (lit "https://example.com/")
  then Some {| protocol := lit "https:"; href := lit "https://example.com/" |}
  else None.

Definition page : Response :=
  {| ok := true; status := 200; body_text := Ok (lit "<html>");
     body_json := Throw (Error_ EngineSyntaxError) |}.

Definition completion_reply (content : value) : Response :=
  {| ok := true; status := 200;
     body_text := Throw NonError;
     body_json :=
       Ok (JObj [(lit "choices",
                  JArr [JObj [(lit "message",
                               JObj [(lit "content", content)])]])]) |}.

(** A database that stores the payload and answers with the row, whose
    summary column reads [stored]. *)
Definition store (stored : option str) (p : Payload) : result InsertReply :=
  Ok {| data := Some {| row_id := 7;
                        row_original_url := original_url p;
                        row_title := p_title p;
                        row_summary := stored;
                        row_created_at := lit "2024-05-01T10:00:00Z" |};
        error := None |}.

(** A world in which every collaborator answers: the request carries
    [body], the page parses to [doc], the completion is [content] and the
    stored summary reads [stored]. *)
Definition world (body : value) (doc : list node) (content : value)
           (stored : option str) : World :=
  {| req_json := Ok body;
     URL_new := one_site;
     fetch_page := fun _ => Ok page;
     cheerio_load := fun _ => doc;
     MISTRAL_API_KEY := Some (lit "key");
     fetch_mistral := fun _ => Ok (completion_reply content);
     supabase_insert := store stored;
     JSON_stringify := fun _ => lit "{}";
     Number_toString := fun l => l;
     Number_truthy := fun _ => true |}.

Definition body_with_url (v : value) : value := JObj [(lit "url", v)].

Definition element (tag : string) (children : list node) : node :=
  Element (lit tag) children.

(** An article whose only paragraph is a blank, beside a main region with
    a real paragraph. *)
Definition blank_article_page : list node :=
  [element "article" [element "p" [Text (lit " ")]];
   element "main" [element "p" [Text (lit "hello")]]].

(** An article with a heading and a paragraph. *)
Definition article_page : list node :=
  [element "article" [element "h1" [Text (lit "News")];
                      element "p" [Text (lit "It   rained.")]]].

(** The text of a stored summary with four points. *)
Definition four_points : str :=
  lit "{" ++ quoted "summary_points" ++ lit ":[" ++ quoted "a" ++ lit ","
  ++ quoted "b" ++ lit "," ++ quoted "c" ++ lit "," ++ quoted "d" ++ lit "]}".

(** The text of an object whose title is the empty string. *)
Definition empty_title_text : str :=
  lit "{" ++ quoted "title" ++ lit ":" ++ [DQUOTE; DQUOTE] ++ lit "}".

Definition empty_title_object : value := JObj [(lit "title", JStr [])].





(** One word of 12,001 letters. *)
Definition long_word : str := repeat 97%N (Z.to_nat 12001).

(** Two letters with 12,000 spaces between them. *)
Definition spaced_text : str := lit "a" ++ repeat SP (Z.to_nat 12000) ++ lit "b".

(** A request for [raw], answered by the article page, the sample
    completion and a stored summary of four points. *)
Definition request (raw : str) : World :=
  world (body_with_url (JStr raw)) article_page (JStr completion)
        (Some four_points).

(** The same, with the number 123 as url. *)
Definition numeric_request : World :=
  world (body_with_url (JNum (lit "123"))) article_page (JStr completion)
        (Some four_points).

(** A request whose page is [blank_article_page]. *)
Definition blank_request : World :=
  world (body_with_url (JStr (lit "https://example.com")))
        blank_article_page (JStr completion) (Some four_points).


(** An article whose paragraph reads a, then holds a template; the content
    of the template reads b, then holds a paragraph reading c. *)
Definition template_page : list node :=
  [element "article"
     [element "p"
        [Text (lit "a");
         element "template"
           [Document [Text (lit "b"); element "p" [Text (lit "c")]]]]]].

(** An address without its final slash. *)
Definition without_final_slash (s : str) : str :=
  match rev s with
  | 47%N :: r => rev r
  | _ => s
  end.

(** A database whose address column drops a final slash: it stores the
    payload and answers with the row as stored. *)
Definition rewriting_store (stored : option str) (p : Payload)
  : result InsertReply :=
  Ok {| data := Some {| row_id := 7;
                        row_original_url := without_final_slash (original_url p);
                        row_title := p_title p;
                        row_summary := stored;
                        row_created_at := lit "2024-05-01T10:00:00Z" |};
        error := None |}.

(** [request raw] with that database. *)
Definition rewriting_request (raw : str) : World :=
  {| req_json := req_json (request raw);
     URL_new := URL_new (request raw);
     fetch_page := fetch_page (request raw);
     cheerio_load := cheerio_load (request raw);
     MISTRAL_API_KEY := MISTRAL_API_KEY (request raw);
     fetch_mistral := fetch_mistral (request raw);
     supabase_insert := rewriting_store (Some four_points);
     JSON_stringify := JSON_stringify (request raw);
     Number_toString := Number_toString (request raw);
     Number_truthy := Number_truthy (request raw) |}.

(** The summary that [rewriting_request] is answered with. *)
Definition rewritten_answer : Summary :=
  {| id := 7; url := lit "https://example.com"; title := lit "A";
     bullets := [lit "a"; lit "b"; lit "c"];
     created_at := lit "2024-05-01T10:00:00Z" |}.

(** The summary that [request] is answered with. *)
Definition answer : Summary :=
  {| id := 7; url := lit "https://example.com/"; title := lit "A";
     bullets := [lit "a"; lit "b"; lit "c"];
     created_at := lit "2024-05-01T10:00:00Z" |}.

Definition entry (i : Z) (u : string) : Summary :=
  {| id := i; url := lit u; title := lit "t"; bullets := [];
     created_at := lit "2024-05-01T10:00:00Z" |}.

End Sample.

(* ================================================================== *)
(** ** The page: stored history, handlers, display *)
(* ================================================================== *)

(** [window.localStorage] as the page uses it: the text kept under the
    history key, whether reading it throws, and whether writing a given
    text throws (a full or forbidden storage).  A write that throws leaves
    the content as it was. *)
Record LocalStorage := {
  stored : option str;
  getItem_error : option thrown;
  setItem_error : str -> option thrown
}.

(** [localStorage.getItem(LOCAL_KEY)] *)
Definition getItem (ls : LocalStorage) : result (option str) :=
  match getItem_error ls with
  | Some e => Throw e
  | None => Ok (stored ls)
  end.

(** [localStorage.setItem(LOCAL_KEY, text)] *)
Definition setItem (ls : LocalStorage) (text : str) : result LocalStorage :=
  match setItem_error ls text with
  | Some e => Throw e
  | None =>
      Ok {| stored := Some text;
            getItem_error := getItem_error ls;
            setItem_error := setItem_error ls |}
  end.

(** What [loadLocalHistory] finds; [None] is a missing [window]. *)
Definition storage_of (win : option LocalStorage) : Storage :=
  match win with
  | None => NoWindow
  | Some ls => Window (getItem ls)
  end.

(** [saveLocalHistory(items)]; [stringify] is [JSON.stringify] on a
    history.  The result is the storage afterwards. *)
Definition saveLocalHistory (stringify : list Summary -> str)
           (win : option LocalStorage) (items : list Summary)
  : result (option LocalStorage) :=
  try_catch
    (match win with
     | None => Ok None
     | Some ls => ls' <- setItem ls (stringify items) ;; Ok (Some ls')
     end)
    (fun _ => Ok win).

(** The storage after [saveLocalHistory], which never throws. *)
Definition saved (stringify : list Summary -> str)
           (win : option LocalStorage) (items : list Summary)
  : option LocalStorage :=
  match saveLocalHistory stringify win items with
  | Ok win' => win'
  | Throw _ => win
  end.

(** A word character of a regular expression: a letter, a digit or an
    underscore. *)
Definition is_word (c : char) : bool :=
  ((48 <=? c) && (c <=? 57) || (65 <=? c) && (c <=? 90)
   || (97 <=? c) && (c <=? 122) || (c =? 95))%N.

Fixpoint skip_word (s : str) : str :=
  match s with
  | [] => []
  | c :: r => if is_word c then skip_word r else s
  end.

(** The test of the regular expression made of: start of text, one or more
    word characters, a dot, one or more word characters.  The dot is not a
    word character, so the first run has to end just before it. *)
Definition looks_like_host (value : str) : bool :=
  match value with
  | [] => false
  | c :: _ =>
      is_word c
      && match skip_word value with
         | d :: w :: _ => (d =? 46)%N && is_word w
         | _ => false
         end
  end.

Definition HTTPS_PREFIX : str := lit "https://".

(** [ensureProtocol(value)]; [parses] tells whether [new URL(value)]
    returns. *)
Definition ensureProtocol (parses : str -> bool) (value : str) : str :=
  if negb (truthy value) then value
  else if parses value then value
  else if looks_like_host value then HTTPS_PREFIX ++ value
  else value.

(** What the page shows as its error. *)
Inductive page_message :=
| EchecGeneration               (* Échec de la génération du résumé *)
| UneErreurEstSurvenue          (* Une erreur est survenue *)
| Reported (m : message).       (* the message of an Error thrown by the host *)

Inductive toast_message :=
| ResumeCopie                   (* Résumé copié *)
| ImpossibleDeCopier            (* Impossible de copier *)
| ElementSupprime.              (* Élément supprimé *)

(** The answer of [fetch("/api/summarize", ...)]: [ok], and what
    [res.json()] gives, at the type the page declares for it. *)
Record ApiResponse := { api_ok : bool; api_json : result Summary }.

(** What the page obtains from the browser. *)
Record Browser := {
  api_summarize : str -> result ApiResponse;    (* the request for a url *)
  stringify_history : list Summary -> str       (* JSON.stringify(items) *)
}.

(** The state of the page, with the local storage it writes to. *)
Record Page := {
  url_field : str;
  isSummarizing : bool;
  error_shown : option page_message;
  latestSummary : option (str * list str);      (* title and bullets *)
  localHistory : list Summary;
  isExpanded : bool;
  toast : option toast_message;
  window_storage : option LocalStorage
}.

(** [e instanceof Error ? e.message : "Une erreur est survenue"] *)
Definition shown_message (e : thrown) : page_message :=
  match e with
  | Error_ m => Reported m
  | NonError => UneErreurEstSurvenue
  end.

(** The page after the [catch] and [finally] of [handleSummarize]. *)
Definition summarize_failed (p : Page) (msg : page_message) : Page :=
  {| url_field := url_field p;
     isSummarizing := false;
     error_shown := Some msg;
     latestSummary := latestSummary p;
     localHistory := localHistory p;
     isExpanded := isExpanded p;
     toast := toast p;
     window_storage := window_storage p |}.

(** The page once [handleSummarize] has run to its end: [setError(null)]
    and [setIsSummarizing(true)] come first, the [catch] sets the error
    and the [finally] resets the spinner.  The payload is taken at its
    declared type, under which the default title and the default bullets
    never apply. *)
Definition handleSummarize (b : Browser) (p : Page) : Page :=
  match api_summarize b (url_field p) with
  | Throw e => summarize_failed p (shown_message e)
  | Ok res =>
      if negb (api_ok res) then summarize_failed p EchecGeneration
      else
        match api_json res with
        | Throw e => summarize_failed p (shown_message e)
        | Ok payload =>
            let normalized := (title payload, bullets payload) in
            let created :=
              {| id := id payload;
                 url := url payload;
                 title := title payload;
                 bullets := snd normalized;
                 created_at := created_at payload |} in
            let next := upsertByUrl (localHistory p) created in
            {| url_field := url_field p;
               isSummarizing := false;
               error_shown := None;
               latestSummary := Some normalized;
               localHistory := next;
               isExpanded := false;
               toast := toast p;
               window_storage :=
                 saved (stringify_history b) (window_storage p) next |}
        end
  end.

(** The click on Supprimer for the entry [s].  (The timer that clears the
    toast two seconds later is a later event.) *)
Definition handleDelete (b : Browser) (p : Page) (s : Summary) : Page :=
  let next := removeFromHistory (localHistory p) (id s) (url s) in
  {| url_field := url_field p;
     isSummarizing := isSummarizing p;
     error_shown := error_shown p;
     latestSummary := latestSummary p;
     localHistory := next;
     isExpanded := isExpanded p;
     toast := Some ElementSupprime;
     window_storage := saved (stringify_history b) (window_storage p) next |}.

(** What the user does to the page. *)
Inductive page_event :=
| Typed (value : str)           (* onChange of the url field *)
| Blurred (parses : str -> bool) (* onBlur of the url field *)
| Summarize (b : Browser)
| Delete (b : Browser) (s : Summary).

Definition set_url (p : Page) (value : str) : Page :=
  {| url_field := value;
     isSummarizing := isSummarizing p;
     error_shown := error_shown p;
     latestSummary := latestSummary p;
     localHistory := localHistory p;
     isExpanded := isExpanded p;
     toast := toast p;
     window_storage := window_storage p |}.

Definition page_step (p : Page) (ev : page_event) : Page :=
  match ev with
  | Typed value => set_url p value
  | Blurred parses => set_url p (ensureProtocol parses (url_field p))
  | Summarize b => handleSummarize b p
  | Delete b s => handleDelete b p s
  end.

Definition page_run (p : Page) (evs : list page_event) : Page :=
  fold_left page_step evs p.

(** The bullets listed under the latest summary. *)
Definition visible_bullets (expanded : bool) (bs : list str) : list str :=
  if expanded then bs else firstn 3 bs.

(** Whether the buttons Afficher plus and Copier tout are rendered:
    [latestSummary.bullets.length > 3]. *)
Definition shows_more_controls (bs : list str) : bool :=
  (3 <? List.length bs)%nat.

(** The api answer that carries what the route handler answered in [w]:
    [ok] for a status from 200 to 299, and the summary as the payload of a
    success. *)
Definition serves (w : World) (res : ApiResponse) : Prop :=
  exists r,
    POST w = Ok r
    /\ api_ok res = (200 <=? http_status r) && (http_status r <=? 299)
    /\ forall s, body r = SummaryBody s -> api_json res = Ok s.

(* ================================================================== *)
(** ** More vocabulary *)
(* ================================================================== *)

(** No two neighbours of a text are both whitespace. *)
Fixpoint no_double_space (s : str) : bool :=
  match s with
  | [] => true
  | c :: r =>
      match r with
      | [] => true
      | d :: _ => negb (is_ws c && is_ws d) && no_double_space r
      end
  end.

(** A text does not start with whitespace. *)
Definition starts_clean (s : str) : bool :=
  match s with
  | [] => true
  | c :: _ => negb (is_ws c)
  end.

(** Whether some element of the document has the tag. *)
Definition has_element (tag : string) (doc : list node) : bool :=
  existsb (fun e => str_eqb (lit tag) (tag_of (snd e))) (elements doc).

(** Two worlds that agree on the request and on the URL parser. *)
Definition same_request (w w' : World) : Prop :=
  req_json w = req_json w' /\ forall s, URL_new w s = URL_new w' s.

(** The world [w] with another database client. *)
Definition with_database (w : World)
           (db : Payload -> result InsertReply) : World :=
  {| req_json := req_json w;
     URL_new := URL_new w;
     fetch_page := fetch_page w;
     cheerio_load := cheerio_load w;
     MISTRAL_API_KEY := MISTRAL_API_KEY w;
     fetch_mistral := fetch_mistral w;
     supabase_insert := db;
     JSON_stringify := JSON_stringify w;
     Number_toString := Number_toString w;
     Number_truthy := Number_truthy w |}.

(** The world [w] with another completion service and another database
    client. *)
Definition with_services (w : World) (key : option str)
           (service : str -> result Response)
           (db : Payload -> result InsertReply) : World :=
  {| req_json := req_json w;
     URL_new := URL_new w;
     fetch_page := fetch_page w;
     cheerio_load := cheerio_load w;
     MISTRAL_API_KEY := key;
     fetch_mistral := service;
     supabase_insert := db;
     JSON_stringify := JSON_stringify w;
     Number_toString := Number_toString w;
     Number_truthy := Number_truthy w |}.

(** The message of the 400 answer the url of the request gets, if it gets
    one: the url is absent, null or blank, or is a string that is not an
    absolute http(s) URL. *)
Definition url_rejection (w : World) : option message :=
  match submitted_url w with
  | None | Some JNull => Some ParametreUrlManquant
  | Some (JStr raw) =>
      match trim raw with
      | [] => Some ParametreUrlManquant
      | _ :: _ =>
          match parse_http_url w (trim raw) with
          | None => Some UrlInvalide
          | Some _ => None
          end
      end
  | Some _ => None
  end.

(** The value the handler serializes as the stored summary. *)
Definition points_object (summary_points : list str) : value :=
  JObj [(lit "summary_points", JArr (map JStr summary_points))].

(** The database returns the title and the summary it was given. *)
Definition stores_payload (w : World) : Prop :=
  forall p reply row,
    supabase_insert w p = Ok reply -> data reply = Some row ->
    row_title row = p_title p /\ row_summary row = Some (p_summary p).

(** What the handler serializes in [w] reads back as it was. *)
Definition summary_reads_back (w : World) : Prop :=
  forall text ts,
    summarizeWithMistral w text = Ok ts ->
    JSON_parse (JSON_stringify w (points_object (snd ts)))
    = Some (points_object (snd ts)).

(** Among the proper prefixes of [obj], none has balanced braces and
    parses: the first candidate of the scan that parses is [obj] itself. *)
Definition closes_only_at_end (obj : str) : bool :=
  forallb (fun k => negb ((brace_depth (firstn k obj) =? 0)
                          && match JSON_parse (firstn k obj) with
                             | Some _ => true
                             | None => false
                             end))
          (seq 1 (List.length obj - 1)).

(** *** More sample inputs *)

Module Fixture.

(** The text of the object that holds the points x and y. *)
Definition stored_points : str :=
  lit "{" ++ quoted "summary_points" ++ lit ":[" ++ quoted "x" ++ lit ","
  ++ quoted "y" ++ lit "]}".

(** A database that returns the row as it was given. *)
Definition faithful_store (p : Payload) : result InsertReply :=
  Ok {| data := Some {| row_id := 7;
                        row_original_url := original_url p;
                        row_title := p_title p;
                        row_summary := Some (p_summary p);
                        row_created_at := lit "2024-05-01T10:00:00Z" |};
        error := None |}.

(** The sample request, with a database that returns what it was given
    and a serializer that writes the two sample points. *)
Definition faithful_world : World :=
  {| req_json := Ok (Sample.body_with_url (JStr (lit "https://example.com")));
     URL_new := Sample.one_site;
     fetch_page := fun _ => Ok Sample.page;
     cheerio_load := fun _ => Sample.article_page;
     MISTRAL_API_KEY := Some (lit "key");
     fetch_mistral := fun _ => Ok (Sample.completion_reply (JStr Sample.completion));
     supabase_insert := faithful_store;
     JSON_stringify := fun _ => stored_points;
     Number_toString := fun l => l;
     Number_truthy := fun _ => true |}.

Definition faithful_answer : Summary :=
  {| id := 7; url := lit "https://example.com/"; title := lit "A";
     bullets := [lit "x"; lit "y"];
     created_at := lit "2024-05-01T10:00:00Z" |}.

(** A page of divisions and spans only. *)
Definition div_page : list node :=
  [Sample.element "div" [Sample.element "span" [Text (lit "Some text")];
                         Text (lit "more")]].

(** A page with paragraphs and neither article nor main. *)
Definition plain_page : list node :=
  [Sample.element "div" [Sample.element "h1" [Text (lit "Title")];
                         Sample.element "p" [Text (lit "One.")];
                         Sample.element "p" [Text (lit "Two.")]]].

(** The sample request answered by a page of divisions only. *)
Definition div_request : World :=
  Sample.world (Sample.body_with_url (JStr (lit "https://example.com")))
               div_page (JStr Sample.completion) None.

(** The object inside the sample completion. *)
Definition completion_core : str :=
  lit "{" ++ quoted "title" ++ lit ":" ++ quoted "A" ++ lit ","
  ++ quoted "summary_points" ++ lit ":[" ++ quoted "x" ++ lit ","
  ++ quoted "y" ++ lit "]}".

(** The text of an object whose title holds a closing brace. *)
Definition brace_in_title : str :=
  lit "{" ++ quoted "title" ++ lit ":" ++ quoted "a}b" ++ lit "}".

(** A database that is down. *)
Definition broken_store (p : Payload) : result InsertReply :=
  Throw (Error_ (HostMessage (lit "connection refused"))).

(** A completion service that is down. *)
Definition broken_service (text : str) : result Response :=
  Throw (Error_ (HostMessage (lit "fetch failed"))).

(** A storage that accepts every write. *)
Definition empty_storage : LocalStorage :=
  {| stored := None; getItem_error := None; setItem_error := fun _ => None |}.

(** A storage that holds [text] and refuses every write. *)
Definition full_storage (text : str) : LocalStorage :=
  {| stored := Some text; getItem_error := None;
     setItem_error := fun _ => Some (Error_ (HostMessage (lit "QuotaExceededError"))) |}.

(** A serializer that writes an array of one number whatever the
    history. *)
Definition one_stringify (items : list Summary) : str := lit "[7]".

(** A serializer that writes an empty array whatever the history. *)
Definition blank_stringify (items : list Summary) : str := lit "[]".

(** A browser whose api answers with [res]. *)
Definition browser (res : result ApiResponse) : Browser :=
  {| api_summarize := fun _ => res; stringify_history := blank_stringify |}.

(** A fresh page with [u] in its url field and [items] as history. *)
Definition page (u : string) (items : list Summary) : Page :=
  {| url_field := lit u;
     isSummarizing := false;
     error_shown := None;
     latestSummary := None;
     localHistory := items;
     isExpanded := false;
     toast := None;
     window_storage := Some empty_storage |}.

(** A parser that accepts the texts that start with https:// *)
Definition https_only (s : str) : bool :=
  match s with
  | 104 :: 116 :: 116 :: 112 :: 115 :: 58 :: 47 :: 47 :: _ => true
  | _ => false
  end%N.

End Fixture.

(* ================================================================== *)
(** * Properties *)
(* ================================================================== *)

(** ** Strings *)

Lemma str_eqb_spec (a b : str) : str_eqb a b = true <-> a = b.
Proof.
  revert b; induction a as [|x a IH]; intros [|y b]; simpl;
    try (split; [discriminate | congruence]); try tauto.
  rewrite andb_true_iff, N.eqb_eq, IH.
  split; [intros [-> ->]; reflexivity | intros [= -> ->]; auto].
Qed.

Lemma str_eqb_refl (a : str) : str_eqb a a = true.
Proof. now apply str_eqb_spec. Qed.

Lemma str_eqb_neq (a b : str) : str_eqb a b = false <-> a <> b.
Proof.
  rewrite <- str_eqb_spec. destruct (str_eqb a b); split; congruence.
Qed.

Lemma length_nonneg (s : str) : 0 <= JS.length s.
Proof. unfold JS.length; lia. Qed.

Lemma length_app (a b : str) : JS.length (a ++ b) = JS.length a + JS.length b.
Proof. unfold JS.length; rewrite List.length_app; lia. Qed.

Lemma length_cons (c : char) (s : str) : JS.length (c :: s) = JS.length s + 1.
Proof. unfold JS.length; simpl List.length; lia. Qed.

(** A slice between two indices in range is the text between them. *)
Lemma slice_in_range (s : str) (b e : Z) :
  0 <= b <= e -> e <= JS.length s ->
  slice s b e = firstn (Z.to_nat (e - b)) (skipn (Z.to_nat b) s).
Proof.
  intros Hb He. unfold slice.
  destruct (Z.ltb_spec b 0); [lia|].
  destruct (Z.ltb_spec e 0); [lia|].
  rewrite !Z.min_l by lia. reflexivity.
Qed.

Lemma slice_prefix (s : str) (m : Z) :
  0 <= m -> slice s 0 m = firstn (Z.to_nat m) s.
Proof.
  intros Hm. unfold slice. pose proof (length_nonneg s) as Hl.
  destruct (Z.ltb_spec m 0); [lia|]. simpl (0 <? 0).
  rewrite (Z.min_l 0) by lia. simpl skipn. rewrite Z.sub_0_r.
  destruct (Z.le_ge_cases m (JS.length s)).
  - now rewrite Z.min_l.
  - rewrite Z.min_r by lia. unfold JS.length in *.
    rewrite Nat2Z.id, firstn_all. symmetry. apply firstn_all2. lia.
Qed.

Lemma clamp_firstn (s : str) (m : Z) :
  0 <= m -> clamp s m = firstn (Z.to_nat m) s.
Proof.
  intros Hm. unfold clamp. destruct (Z.leb_spec (JS.length s) m).
  - symmetry. apply firstn_all2. unfold JS.length in *. lia.
  - now apply slice_prefix.
Qed.


(** ** Whitespace *)

Lemma trimStart_app_end (s : str) (c : char) :
  trimStart (s ++ [c]) =
  match trimStart s with
  | [] => if is_ws c then [] else [c]
  | t => t ++ [c]
  end.
Proof.
  induction s as [|x s IH]; simpl.
  - reflexivity.
  - destruct (is_ws x); [exact IH | reflexivity].
Qed.

(** The structural reading of [trimEnd]. *)
Lemma trimEnd_cons (c : char) (s : str) :
  trimEnd (c :: s) =
  match trimEnd s with
  | [] => if is_ws c then [] else [c]
  | t => c :: t
  end.
Proof.
  unfold trimEnd. rewrite <- !rev_alt. simpl rev. rewrite trimStart_app_end.
  destruct (trimStart (rev s)) as [|y t] eqn:E; simpl.
  - destruct (is_ws c); reflexivity.
  - rewrite rev_app_distr. simpl.
    destruct (rev t ++ [y]) eqn:E'; [|reflexivity].
    destruct (rev t); discriminate.
Qed.

Lemma trimEnd_nil : trimEnd [] = [].
Proof. reflexivity. Qed.

Lemma trimEnd_cons_keep (c : char) (s : str) :
  is_ws c = false -> trimEnd (c :: s) = c :: trimEnd s.
Proof.
  intros H. rewrite trimEnd_cons, H. now destruct (trimEnd s).
Qed.

Lemma trimEnd_app_keep (cur s : str) :
  forallb (fun c => negb (is_ws c)) cur = true ->
  trimEnd (cur ++ s) = cur ++ trimEnd s.
Proof.
  induction cur as [|c cur IH]; simpl; intros H; [reflexivity|].
  apply andb_true_iff in H as [Hc Hcur].
  rewrite trimEnd_cons_keep by now destruct (is_ws c).
  now rewrite IH.
Qed.

(** After a whitespace character the replacement never starts with one. *)
Lemma trimStart_replace_in_run (s : str) :
  trimStart (replace_ws_runs true s) = replace_ws_runs true s.
Proof.
  induction s as [|c s IH]; simpl; [reflexivity|].
  destruct (is_ws c) eqn:E; [exact IH|]. simpl. now rewrite E.
Qed.

Lemma is_ws_SP : is_ws SP = true.
Proof. reflexivity. Qed.

Lemma trimStart_replace_any (b : bool) (s : str) :
  trimStart (replace_ws_runs b s) = replace_ws_runs true s.
Proof.
  destruct b; [apply trimStart_replace_in_run|].
  destruct s as [|c s]; simpl; [reflexivity|].
  destruct (is_ws c) eqn:E; simpl.
  - apply trimStart_replace_in_run.
  - now rewrite E.
Qed.

Lemma words_from_nonempty (s cur : str) :
  Forall (fun w => w <> []) (words_from cur s).
Proof.
  revert cur; induction s as [|c s IH]; intros cur; simpl.
  - destruct cur; constructor; [discriminate | constructor].
  - destruct (is_ws c).
    + destruct cur; [apply IH|]. constructor; [discriminate | apply IH].
    + apply IH.
Qed.

Lemma join_cons (sep p : str) (rest : list str) :
  join sep (p :: rest) =
  match rest with [] => p | _ :: _ => p ++ sep ++ join sep rest end.
Proof. destruct rest; reflexivity. Qed.

Lemma join_nil_iff (sep : str) (parts : list str) :
  Forall (fun w => w <> []) parts -> (join sep parts = [] <-> parts = []).
Proof.
  intros H. destruct parts as [|p rest]; [tauto|].
  inversion H as [|? ? Hp _]; subst. rewrite join_cons.
  split; [|discriminate].
  destruct p; [congruence|]. destruct rest; discriminate.
Qed.

Lemma is_ws_negb_snoc (cur : str) (c : char) :
  forallb (fun c => negb (is_ws c)) cur = true -> is_ws c = false ->
  forallb (fun c => negb (is_ws c)) (cur ++ [c]) = true.
Proof.
  intros H E. rewrite forallb_app, H. simpl. now rewrite E.
Qed.

(** Collapsing and trimming leaves the words, one space apart. *)
Lemma collapse_words (s : str) :
  (forall cur, cur <> [] ->
     forallb (fun c => negb (is_ws c)) cur = true ->
     join [SP] (words_from cur s) = cur ++ trimEnd (replace_ws_runs false s))
  /\ join [SP] (words_from [] s) = trimEnd (replace_ws_runs true s).
Proof.
  induction s as [|c s [IHa IHb]].
  - split.
    + intros cur Hne _. simpl. destruct cur; [congruence|].
      now rewrite trimEnd_nil, app_nil_r.
    + reflexivity.
  - split.
    + intros cur Hne Hcur. simpl. destruct (is_ws c) eqn:E.
      * destruct cur as [|x cur]; [congruence|].
        rewrite join_cons, trimEnd_cons, is_ws_SP, <- IHb.
        pose proof (words_from_nonempty s []) as Hw.
        destruct (words_from [] s) as [|p ps] eqn:Ew.
        -- simpl. now rewrite app_nil_r.
        -- destruct (join [SP] (p :: ps)) eqn:Ej.
           ++ apply (join_nil_iff [SP] _ Hw) in Ej. discriminate.
           ++ reflexivity.
      * rewrite IHa.
        -- rewrite trimEnd_cons_keep by exact E. now rewrite <- app_assoc.
        -- destruct cur; discriminate.
        -- now apply is_ws_negb_snoc.
    + simpl. destruct (is_ws c) eqn:E; [exact IHb|].
      rewrite (IHa [c]); [|discriminate|simpl; now rewrite E].
      now rewrite trimEnd_cons_keep.
Qed.

Lemma normalizeWhitespace_words (text : str) :
  normalizeWhitespace text = join [SP] (words text).
Proof.
  unfold normalizeWhitespace, trim, words.
  rewrite trimStart_replace_any. symmetry. apply collapse_words.
Qed.



(** ** Normalizer / Clamper *)

(** C2, as amended.  When the whitespace-collapsed text is longer than
    12,000 characters, the clamped output has exactly 12,000 characters and
    is a plain prefix of the collapsed text; the collapsed text is the words
    of the input (its maximal runs of non-whitespace characters) one space
    apart, so every run of whitespace has become one space and none is left
    at either end. *)
Theorem clamp_of_long_collapsed_text (text : str) :
  MAX_CHARS < JS.length (normalizeWhitespace text) ->
  let collapsed := normalizeWhitespace text in
  let out := clamp collapsed MAX_CHARS in
  JS.length out = MAX_CHARS
  /\ prefix_of out collapsed
  /\ out = firstn (Z.to_nat MAX_CHARS) collapsed
  /\ collapsed = join [SP] (words text).
Proof.
  intros Hlong collapsed out.
  assert (Hout : out = firstn (Z.to_nat MAX_CHARS) collapsed).
  { unfold out. apply clamp_firstn. unfold MAX_CHARS. lia. }
  repeat split.
  - rewrite Hout. unfold JS.length in *. rewrite firstn_length_le.
    + unfold MAX_CHARS. lia.
    + fold collapsed in Hlong. unfold MAX_CHARS in *. lia.
  - exists (skipn (Z.to_nat MAX_CHARS) collapsed).
    rewrite Hout. symmetry. apply firstn_skipn.
  - exact Hout.
  - apply normalizeWhitespace_words.
Qed.

Lemma clamp_of_long_collapsed_text_witness :
  JS.length (clamp (normalizeWhitespace Sample.long_word) MAX_CHARS) = MAX_CHARS.
Proof.
  apply (clamp_of_long_collapsed_text Sample.long_word).
  vm_compute. reflexivity.
Defined.

(** C2, as stated, fails: a text of 12,002 characters whose collapsed form
    has three. *)
Lemma clamp_of_long_spaced_text :
  MAX_CHARS < JS.length Sample.spaced_text
  /\ clamp (normalizeWhitespace Sample.spaced_text) MAX_CHARS = lit "a b"
  /\ JS.length (clamp (normalizeWhitespace Sample.spaced_text) MAX_CHARS)
     <> MAX_CHARS.
Proof.
  split; [vm_compute; reflexivity|].
  split; [vm_compute; reflexivity|].
  intros H. vm_compute in H. discriminate.
Qed.

(** ** JSON.parse on samples *)

Example JSON_parse_accepts :
  JSON_parse (lit " [1, -0.5e+3, true, null, {}, [[]]] ")
  = Some (JArr [JNum (lit "1"); JNum (lit "-0.5e+3"); JBool true; JNull;
                JObj []; JArr [JArr []]])
  /\ JSON_parse (quoted "a\u0041\n\/")
     = Some (JStr [97; 65; 10; 47]%N)
  /\ JSON_parse (lit "{" ++ quoted "k" ++ lit ":1," ++ quoted "k" ++ lit ":2}")
     = Some (JObj [(lit "k", JNum (lit "2"))]).
Proof. repeat split; vm_compute; reflexivity. Qed.

Example JSON_parse_rejects :
  map JSON_parse
      [[]; lit "01"; lit "1."; lit "-"; lit "[1,]"; lit "[1 2]"; lit "{}}";
       lit "{} x"; lit "nul"; lit "{,}"; DQUOTE :: lit "open";
       lit "Sure! {}"]
  = repeat None 12.
Proof. vm_compute. reflexivity. Qed.

(** ** RecoveringParser *)

Lemma at_cons_succ (x : char) (s : str) (i : Z) :
  0 <= i -> at_ (x :: s) (i + 1) = at_ s i.
Proof.
  intros Hi. unfold at_.
  destruct (Z.ltb_spec (i + 1) 0); [lia|].
  destruct (Z.ltb_spec i 0); [lia|].
  replace (Z.to_nat (i + 1)) with (S (Z.to_nat i)) by lia. reflexivity.
Qed.

(** [indexOf] answers -1 exactly when the character does not occur, and
    otherwise the first index at which it occurs. *)
Lemma indexOf_spec (s : str) (c : char) :
  (indexOf s c = -1 /\ ~ In c s)
  \/ (0 <= indexOf s c < JS.length s
      /\ at_ s (indexOf s c) = Some c
      /\ forall k, 0 <= k < indexOf s c -> at_ s k <> Some c).
Proof.
  induction s as [|x s IH].
  - left. split; [reflexivity | intros []].
  - simpl indexOf. rewrite length_cons. destruct (N.eqb_spec x c) as [->|Hne].
    + right. pose proof (length_nonneg s).
      split; [lia|]. split; [reflexivity|]. intros k Hk. lia.
    + destruct IH as [[Hi Hn]|(Hr & Ha & Hf)].
      * left. rewrite Hi. simpl. split; [reflexivity|].
        intros [->|Hin]; [congruence | contradiction].
      * right. destruct (Z.ltb_spec (indexOf s c) 0); [lia|].
        split; [lia|]. split.
        -- now rewrite at_cons_succ by lia.
        -- intros k Hk. destruct (Z.eq_dec k 0) as [->|Hk0].
           ++ unfold at_. simpl. congruence.
           ++ replace k with ((k - 1) + 1) by lia.
              rewrite at_cons_succ by lia. apply Hf. lia.
Qed.

Lemma indexOf_absent (s : str) (c : char) : ~ In c s -> indexOf s c = -1.
Proof.
  intros Hn. destruct (indexOf_spec s c) as [[H _]|(_ & Ha & _)]; [exact H|].
  exfalso. apply Hn. unfold at_ in Ha.
  destruct (indexOf s c <? 0); [discriminate|].
  eapply nth_error_In; eauto.
Qed.

Lemma brace_depth_app (a b : str) :
  brace_depth (a ++ b) = brace_depth a + brace_depth b.
Proof. induction a as [|c a IH]; simpl; [reflexivity | rewrite IH; lia]. Qed.

Lemma firstn_succ_nth {A} (l : list A) (n : nat) (x : A) :
  nth_error l n = Some x -> firstn (S n) l = firstn n l ++ [x].
Proof.
  revert l; induction n as [|n IH]; intros [|y l] H; simpl in *;
    try discriminate.
  - now injection H as ->.
  - now rewrite <- IH.
Qed.

Lemma nth_error_skipn {A} (l : list A) (a n : nat) :
  nth_error (skipn a l) n = nth_error l (a + n).
Proof.
  revert l; induction a as [|a IH]; intros l; [reflexivity|].
  destruct l; simpl; [now destruct n | apply IH].
Qed.

(** One more character at the end of a slice. *)
Lemma slice_snoc (s : str) (start i : Z) (c : char) :
  0 <= start <= i -> at_ s i = Some c ->
  slice s start (i + 1) = slice s start i ++ [c].
Proof.
  intros Hs Ha. unfold at_ in Ha.
  destruct (Z.ltb_spec i 0); [lia|].
  assert (Hlen : i < JS.length s).
  { unfold JS.length.
    assert (Z.to_nat i < List.length s)%nat by (apply nth_error_Some; congruence).
    lia. }
  rewrite !slice_in_range by lia.
  replace (Z.to_nat (i + 1 - start)) with (S (Z.to_nat (i - start))) by lia.
  apply firstn_succ_nth. rewrite nth_error_skipn.
  now replace (Z.to_nat start + Z.to_nat (i - start))%nat with (Z.to_nat i) by lia.
Qed.

Lemma at_in_range (s : str) (i : Z) :
  0 <= i < JS.length s -> exists c, at_ s i = Some c.
Proof.
  intros Hi. unfold at_. destruct (Z.ltb_spec i 0); [lia|].
  destruct (nth_error s (Z.to_nat i)) eqn:E; [eauto|].
  apply nth_error_None in E. unfold JS.length in Hi. lia.
Qed.

(** The loop tries the positions from [i] on in order, keeps in [depth]
    the brace depth of the text read so far, and stops at the first
    position where the depth is zero and the slice parses. *)
Lemma scan_balanced_spec (input : str) (start : Z) :
  0 <= start ->
  forall n i, start <= i -> i + Z.of_nat n = JS.length input ->
  match scan_balanced input start n i (brace_depth (slice input start i)) with
  | Ok v =>
      exists j, i <= j /\ closes_at input start j v
                /\ forall k, i <= k < j -> fails_at input start k
  | Throw e =>
      e = Error_ JsonInvalide
      /\ forall k, i <= k < JS.length input -> fails_at input start k
  end.
Proof.
  intros Hstart. induction n as [|n IH]; intros i Hi Hlen.
  - simpl. split; [reflexivity|]. intros k Hk. lia.
  - destruct (at_in_range input i) as [c Hc]; [lia|].
    assert (Hd : brace_depth (slice input start (i + 1)) =
                 if (c =? LBRACE)%N then brace_depth (slice input start i) + 1
                 else if (c =? RBRACE)%N then brace_depth (slice input start i) - 1
                 else brace_depth (slice input start i)).
    { rewrite (slice_snoc input start i c) by (auto; lia).
      rewrite brace_depth_app. simpl.
      destruct (c =? LBRACE)%N; [lia|]. destruct (c =? RBRACE)%N; lia. }
    cbn [scan_balanced]. rewrite Hc. cbv zeta. rewrite <- Hd.
    specialize (IH (i + 1) ltac:(lia) ltac:(lia)).
    assert (Hnext :
      (brace_depth (slice input start (i + 1)) = 0 ->
       JSON_parse (slice input start (i + 1)) = None) ->
      match scan_balanced input start n (i + 1)
              (brace_depth (slice input start (i + 1))) with
      | Ok v =>
          exists j, i <= j /\ closes_at input start j v
                    /\ forall k, i <= k < j -> fails_at input start k
      | Throw e =>
          e = Error_ JsonInvalide
          /\ forall k, i <= k < JS.length input -> fails_at input start k
      end).
    { intros Hfail.
      destruct (scan_balanced input start n (i + 1) _) as [v|e].
      - destruct IH as (j & Hj & Hc' & Hbefore).
        exists j. split; [lia|]. split; [exact Hc'|].
        intros k Hk. destruct (Z.eq_dec k i) as [->|]; [exact Hfail|].
        apply Hbefore. lia.
      - destruct IH as [-> Hall]. split; [reflexivity|].
        intros k Hk. destruct (Z.eq_dec k i) as [->|]; [exact Hfail|].
        apply Hall. lia. }
    destruct (Z.eqb_spec (brace_depth (slice input start (i + 1))) 0) as [Hz|Hnz].
    + destruct (JSON_parse (slice input start (i + 1))) as [v|] eqn:Hp.
      * exists i. split; [lia|]. split.
        -- unfold closes_at. repeat split; auto; lia.
        -- intros k Hk. lia.
      * apply Hnext. auto.
    + apply Hnext. intros Hz. contradiction.
Qed.

Lemma slice_empty (s : str) (i : Z) : 0 <= i -> slice s i i = [].
Proof.
  intros Hi. unfold slice. destruct (Z.ltb_spec i 0); [lia|].
  now rewrite Z.sub_diag.
Qed.

(** C3.  When the direct parse fails and the text has an opening brace,
    the scan starts at the first one, counts depth up on an opening and
    down on a closing brace, and returns the parse of the slice that ends
    at the first position where the depth is zero and the slice parses; if
    there is no such position it throws.  The decorated sample completion
    yields the object with title A and summary_points x, y. *)
Theorem recovery_scans_from_first_brace :
  (forall input start,
      JSON_parse input = None ->
      indexOf input LBRACE = start -> start <> -1 ->
      (at_ input start = Some LBRACE
       /\ forall k, 0 <= k < start -> at_ input k <> Some LBRACE)
      /\ match extractFirstJsonObject input with
         | Ok v =>
             exists j, closes_at input start j v
                       /\ forall k, start <= k < j -> fails_at input start k
         | Throw e =>
             e = Error_ JsonInvalide
             /\ forall k, start <= k < JS.length input -> fails_at input start k
         end)
  /\ extractFirstJsonObject Sample.completion = Ok Sample.completion_object.
Proof.
  split; [|vm_compute; reflexivity].
  intros input start Hparse Hidx Hfound.
  destruct (indexOf_spec input LBRACE) as [[Hi _]|(Hr & Ha & Hf)]; [congruence|].
  rewrite Hidx in *. split; [split; assumption|].
  unfold extractFirstJsonObject. rewrite Hparse, Hidx. cbv zeta.
  destruct (Z.eqb_spec start (-1)); [contradiction|].
  pose proof (scan_balanced_spec input start ltac:(lia)
                (Z.to_nat (JS.length input - start)) start ltac:(lia) ltac:(lia))
    as H.
  rewrite slice_empty in H by lia. simpl brace_depth in H.
  destruct (scan_balanced input start _ start 0) as [v|e].
  - destruct H as (j & _ & Hc & Hb). eauto.
  - exact H.
Qed.

Lemma recovery_scans_from_first_brace_witness :
  exists j, closes_at Sample.completion 6 j Sample.completion_object
            /\ forall k, 6 <= k < j -> fails_at Sample.completion 6 k.
Proof.
  destruct recovery_scans_from_first_brace as [H Hsample].
  destruct (H Sample.completion 6) as [_ Hscan].
  - vm_compute. reflexivity.
  - vm_compute. reflexivity.
  - discriminate.
  - rewrite Hsample in Hscan. exact Hscan.
Defined.

(** A text that is valid JSON is returned parsed, whatever it holds. *)
Lemma recovery_direct_parse (input : str) (v : value) :
  JSON_parse input = Some v -> extractFirstJsonObject input = Ok v.
Proof. unfold extractFirstJsonObject. now intros ->. Qed.

(** C4, as amended.  A text without an opening brace that is not valid
    JSON by itself makes the parser throw its first error (JSON
    introuvable ...) before any scan; a text without an opening brace that
    is valid JSON (a number, a string, an array, true, false, null) is
    returned parsed. *)
Theorem recovery_without_brace (input : str) :
  ~ In LBRACE input ->
  (JSON_parse input = None ->
   extractFirstJsonObject input = Throw (Error_ JsonIntrouvable))
  /\ (forall v, JSON_parse input = Some v ->
                extractFirstJsonObject input = Ok v).
Proof.
  intros Hno. unfold extractFirstJsonObject. split.
  - intros ->. now rewrite (indexOf_absent _ _ Hno).
  - now intros v ->.
Qed.

Lemma recovery_without_brace_witness :
  extractFirstJsonObject (lit "No summary available.")
  = Throw (Error_ JsonIntrouvable).
Proof.
  apply (recovery_without_brace (lit "No summary available.")).
  - vm_compute. intuition discriminate.
  - vm_compute. reflexivity.
Defined.

(** C4, as stated, fails: the text of an empty array has no opening brace
    and is returned parsed. *)
Lemma recovery_of_array_text :
  ~ In LBRACE (lit "[]")
  /\ extractFirstJsonObject (lit "[]") = Ok (JArr []).
Proof.
  split; [vm_compute; intuition discriminate | vm_compute; reflexivity].
Qed.

(** ** ResultAssembler *)

Lemma DEFAULT_TITLE_nonempty : DEFAULT_TITLE <> [].
Proof. discriminate. Qed.

(** C5, as amended.  The assembled title is the object's title field when
    that field is a string, the empty string included, and the placeholder
    otherwise; the placeholder is not empty, so the title is empty exactly
    when the field is the empty string. *)
Theorem assembled_title (num : str -> str) (parsed : value) :
  fst (assemble num parsed) = assemble_title parsed
  /\ (forall s, prop (Some parsed) "title" = Some (JStr s) ->
                assemble_title parsed = s)
  /\ ((forall s, prop (Some parsed) "title" <> Some (JStr s)) ->
      assemble_title parsed = DEFAULT_TITLE)
  /\ (assemble_title parsed = [] <->
      prop (Some parsed) "title" = Some (JStr [])).
Proof.
  unfold assemble_title. split; [reflexivity|].
  destruct (prop (Some parsed) "title") as [[| | |s| |]|] eqn:E;
    (split; [intros s' [= <-] || intros s' [=]; try reflexivity|]);
    (split; [intros H; try reflexivity; exfalso; eapply H; reflexivity|]);
    (split; [intros H; try (exfalso; revert H; apply DEFAULT_TITLE_nonempty);
             rewrite H; reflexivity
            | intros [=]; try reflexivity; subst; reflexivity]).
Qed.

Lemma assembled_title_witness :
  assemble_title Sample.completion_object = lit "A".
Proof.
  apply (assembled_title (fun l => l) Sample.completion_object).
  reflexivity.
Defined.

(** C5, as stated, fails: a completion whose title is the empty string is
    assembled with an empty title. *)
Lemma assembled_title_may_be_empty :
  extractFirstJsonObject Sample.empty_title_text = Ok Sample.empty_title_object
  /\ fst (assemble (fun l => l) Sample.empty_title_object) = [].
Proof.
  split; vm_compute; reflexivity.
Qed.

Lemma traverse_Forall2 {A B} (f : A -> result B) (l : list A) (out : list B) :
  traverse f l = Ok out <-> Forall2 (fun x y => f x = Ok y) l out.
Proof.
  revert out. induction l as [|x r IH]; intros out; simpl.
  - split.
    + intros [= <-]. constructor.
    + intros H. inversion H. reflexivity.
  - split.
    + destruct (f x) as [y|e] eqn:Ex; simpl; [|discriminate].
      destruct (traverse f r) as [ys|e] eqn:Er; simpl; [|discriminate].
      intros [= <-]. constructor; [exact Ex|]. now apply IH.
    + intros H. inversion H as [|x' y r' ys Hx Hr]; subst.
      rewrite Hx. simpl. apply IH in Hr. rewrite Hr. reflexivity.
Qed.

Lemma traverse_length {A B} (f : A -> result B) (l : list A) (out : list B) :
  traverse f l = Ok out -> List.length out = List.length l.
Proof.
  intros H. apply traverse_Forall2 in H.
  symmetry. eapply Forall2_length. exact H.
Qed.

Lemma assemble_points_length (num : str -> str) (pointsRaw : option value)
      (points : list str) :
  assemble_points num pointsRaw = Ok points ->
  (List.length points <= 3)%nat.
Proof.
  unfold assemble_points.
  destruct pointsRaw as [[| | | |items|]|];
    try (intros [= <-]; simpl; lia).
  destruct (traverse (String_ num) items) as [coerced|e]; cbn [bind];
    [|discriminate].
  intros H. replace points with (firstn 3 coerced) by congruence.
  apply firstn_le_length.
Qed.

Lemma response_bullets_length (w : World) (inserted : option Row) :
  (List.length (response_bullets w inserted) <= 3)%nat.
Proof.
  unfold response_bullets. destruct inserted as [row|]; simpl; [|lia].
  destruct (JSON_parse _); simpl; [|lia].
  destruct (assemble_points _ _) as [points|e] eqn:E; simpl; [|lia].
  eapply assemble_points_length. exact E.
Qed.

(** ** The POST handler *)

Lemma bind_Ok_inv {A B} (m : result A) (k : A -> result B) (b : B) :
  bind m k = Ok b -> exists a, m = Ok a /\ k a = Ok b.
Proof. destruct m as [a|e]; simpl; [eauto | discriminate]. Qed.

(** Whatever happens, the handler's [try] yields a response with status
    200, 400, 422 or 500, or throws. *)
Lemma summarize_and_store_cases (w : World) (u : URL) :
  match scrapeReadableText w (href u) with
  | Throw e => summarize_and_store w u = Throw e
  | Ok [] => summarize_and_store w u = Ok (json (ErrorBody AucunContenu) 422)
  | Ok (c :: t) =>
      match summarizeWithMistral w (c :: t) with
      | Throw e => summarize_and_store w u = Throw e
      | Ok ts =>
          match supabase_insert w (make_payload w u (fst ts) (snd ts)) with
          | Throw e => summarize_and_store w u = Throw e
          | Ok reply =>
              match error reply, data reply with
              | Some msg, _ =>
                  summarize_and_store w u
                  = Ok (json (ErrorBody (HostMessage msg)) 500)
              | None, None =>
                  summarize_and_store w u = Throw (Error_ EngineTypeError)
              | None, Some row =>
                  summarize_and_store w u
                  = Ok (json (SummaryBody
                                {| id := row_id row;
                                   url := row_original_url row;
                                   title := row_title row;
                                   bullets := response_bullets w (Some row);
                                   created_at := row_created_at row |})
                             200)
              end
          end
      end
  end.
Proof.
  unfold summarize_and_store.
  destruct (scrapeReadableText w (href u)) as [[|c t]|e]; simpl; try reflexivity.
  destruct (summarizeWithMistral w (c :: t)) as [ts|e]; simpl; try reflexivity.
  destruct (supabase_insert w _) as [reply|e]; simpl; try reflexivity.
  destruct (error reply); [reflexivity|].
  destruct (data reply); reflexivity.
Qed.

Lemma POST_of_try (w : World) :
  POST w = match POST_try w with
           | Ok r => Ok r
           | Throw e => Ok (json (ErrorBody (message_of e)) 500)
           end.
Proof. reflexivity. Qed.

Lemma POST_try_string (w : World) (raw : str) :
  submitted_url w = Some (JStr raw) ->
  POST_try w =
  match trim raw with
  | [] => Ok (json (ErrorBody ParametreUrlManquant) 400)
  | _ :: _ =>
      match parse_http_url w (trim raw) with
      | None => Ok (json (ErrorBody UrlInvalide) 400)
      | Some u => summarize_and_store w u
      end
  end.
Proof.
  unfold submitted_url, request_body, POST_try. intros ->.
  destruct (trim raw); reflexivity.
Qed.

(** A success response comes from a string url that parsed, a non-empty
    text, a completion, and a row. *)
Lemma POST_summary_inv (w : World) (s : Summary) (st : Z) :
  POST w = Ok (json (SummaryBody s) st) ->
  exists raw u text ts reply row,
    submitted_url w = Some (JStr raw)
    /\ trim raw <> []
    /\ parse_http_url w (trim raw) = Some u
    /\ scrapeReadableText w (href u) = Ok text /\ text <> []
    /\ summarizeWithMistral w text = Ok ts
    /\ supabase_insert w (make_payload w u (fst ts) (snd ts)) = Ok reply
    /\ error reply = None /\ data reply = Some row
    /\ st = 200
    /\ s = {| id := row_id row;
              url := row_original_url row;
              title := row_title row;
              bullets := response_bullets w (Some row);
              created_at := row_created_at row |}.
Proof.
  rewrite POST_of_try. intros H.
  destruct (submitted_url w) as [[| | |raw| |]|] eqn:Eu;
    try (unfold POST_try in H; unfold submitted_url, request_body in Eu;
         rewrite Eu in H; simpl in H; discriminate).
  rewrite (POST_try_string w raw Eu) in H.
  destruct (trim raw) as [|c0 t0] eqn:Et; [discriminate|].
  destruct (parse_http_url w (c0 :: t0)) as [u|] eqn:Ep; [|discriminate].
  pose proof (summarize_and_store_cases w u) as Hc.
  destruct (scrapeReadableText w (href u)) as [[|c t]|e] eqn:Es;
    try (rewrite Hc in H; discriminate).
  destruct (summarizeWithMistral w (c :: t)) as [ts|e] eqn:Em;
    try (rewrite Hc in H; discriminate).
  destruct (supabase_insert w _) as [reply|e] eqn:Ei;
    try (rewrite Hc in H; discriminate).
  destruct (error reply) as [msg|] eqn:Ee; [rewrite Hc in H; discriminate|].
  destruct (data reply) as [row|] eqn:Ed; [|rewrite Hc in H; discriminate].
  rewrite Hc in H. injection H as <- <-.
  exists raw, u, (c :: t), ts, reply, row.
  rewrite Et. repeat split; auto; discriminate.
Qed.




Lemma POST_try_not_string (w : World) :
  (forall raw, submitted_url w <> Some (JStr raw)) ->
  POST_try w = Ok (json (ErrorBody ParametreUrlManquant) 400)
  \/ POST_try w = Throw (Error_ EngineTypeError).
Proof.
  unfold submitted_url, request_body, POST_try. intros H.
  destruct (prop _ "url") as [[| | |raw| |]|]; auto.
  exfalso. now apply (H raw).
Qed.

Lemma POST_try_fits (w : World) (r : HttpResponse) :
  POST_try w = Ok r -> status_fits r.
Proof.
  unfold status_fits, is_failure_status.
  destruct (submitted_url w) as [[| | |raw| |]|] eqn:Eu.
  1-3, 5-7:
    destruct (POST_try_not_string w) as [H|H];
    [ intros raw'; rewrite Eu; discriminate
    | rewrite H; intros [= <-]; simpl; auto
    | rewrite H; discriminate ].
  rewrite (POST_try_string w raw Eu).
  destruct (trim raw) as [|c0 t0]; [intros [= <-]; simpl; auto|].
  destruct (parse_http_url w _) as [u|]; [|intros [= <-]; simpl; auto].
  pose proof (summarize_and_store_cases w u) as Hc.
  destruct (scrapeReadableText w (href u)) as [[|c t]|e];
    try (rewrite Hc; intros [= <-]; simpl; auto; fail).
  destruct (summarizeWithMistral w (c :: t)) as [ts|e];
    try (rewrite Hc; intros [= <-]; simpl; auto; fail).
  destruct (supabase_insert w _) as [reply|e];
    try (rewrite Hc; intros [= <-]; simpl; auto; fail).
  destruct (error reply); [rewrite Hc; intros [= <-]; simpl; auto|].
  destruct (data reply); rewrite Hc; intros [= <-]; simpl; auto.
Qed.

(** The handler always answers and nothing escapes it: a
    failure becomes a body with an error message and status 400, 422 or
    500, a success has status 200.  The status is 400 when the url is
    absent, null, a blank string, or a string that is not an absolute
    http(s) URL; 422 when the page yields no text; 500 with the thrown
    message when fetching the page, the completion service or the database
    client throws (a page that is not ok gives its status in the message),
    and 500 with the database's message when the insert reports an
    error. *)
Theorem POST_maps_failures (w : World) :
  (exists r, POST w = Ok r /\ status_fits r)
  /\ (submitted_url w = None \/ submitted_url w = Some JNull ->
      POST w = Ok (json (ErrorBody ParametreUrlManquant) 400))
  /\ (forall raw, submitted_url w = Some (JStr raw) ->
      (trim raw = [] ->
       POST w = Ok (json (ErrorBody ParametreUrlManquant) 400))
      /\ (trim raw <> [] ->
          (URL_new w (trim raw) = None
           \/ exists u, URL_new w (trim raw) = Some u
                        /\ is_http (protocol u) = false) ->
          POST w = Ok (json (ErrorBody UrlInvalide) 400))
      /\ (forall u,
          trim raw <> [] -> parse_http_url w (trim raw) = Some u ->
          (forall e, scrapeReadableText w (href u) = Throw e ->
                     POST w = Ok (json (ErrorBody (message_of e)) 500))
          /\ (forall res, fetch_page w (href u) = Ok res -> ok res = false ->
                POST w = Ok (json (ErrorBody (EchecChargement (status res))) 500))
          /\ (scrapeReadableText w (href u) = Ok [] ->
              POST w = Ok (json (ErrorBody AucunContenu) 422))
          /\ (forall text,
              scrapeReadableText w (href u) = Ok text -> text <> [] ->
              (forall e, summarizeWithMistral w text = Throw e ->
                         POST w = Ok (json (ErrorBody (message_of e)) 500))
              /\ (forall ts,
                  summarizeWithMistral w text = Ok ts ->
                  let payload := make_payload w u (fst ts) (snd ts) in
                  (forall e, supabase_insert w payload = Throw e ->
                             POST w = Ok (json (ErrorBody (message_of e)) 500))
                  /\ (forall reply msg,
                      supabase_insert w payload = Ok reply ->
                      error reply = Some msg ->
                      POST w = Ok (json (ErrorBody (HostMessage msg)) 500)))))).
Proof.
  split; [|split].
  - rewrite POST_of_try. destruct (POST_try w) as [r|e] eqn:E.
    + exists r. split; [reflexivity | now apply (POST_try_fits w)].
    + eexists. split; [reflexivity|]. right. right. reflexivity.
  - rewrite POST_of_try. unfold submitted_url, request_body, POST_try.
    intros [-> | ->]; reflexivity.
  - intros raw Eu. rewrite POST_of_try, (POST_try_string w raw Eu).
    split; [intros ->; reflexivity|]. split.
    + intros Hne Hbad. destruct (trim raw) as [|c t]; [congruence|].
      unfold parse_http_url.
      destruct Hbad as [-> | (u & -> & ->)]; reflexivity.
    + intros u Hne Hu. destruct (trim raw) as [|c0 t0]; [congruence|].
      rewrite Hu. pose proof (summarize_and_store_cases w u) as Hc.
      split; [|split; [|split]].
      * intros e He. rewrite He in Hc. now rewrite Hc.
      * intros res Hres Hok.
        assert (He : scrapeReadableText w (href u)
                     = Throw (Error_ (EchecChargement (status res)))).
        { unfold scrapeReadableText. rewrite Hres. simpl. now rewrite Hok. }
        rewrite He in Hc. now rewrite Hc.
      * intros He. rewrite He in Hc. now rewrite Hc.
      * intros text He Htext. destruct text as [|c t]; [congruence|].
        rewrite He in Hc. split.
        -- intros e Hm. rewrite Hm in Hc. now rewrite Hc.
        -- intros ts Hm payload. rewrite Hm in Hc. fold payload in Hc. split.
           ++ intros e Hi. rewrite Hi in Hc. now rewrite Hc.
           ++ intros reply msg Hi Hmsg. rewrite Hi, Hmsg in Hc. now rewrite Hc.
Qed.

Example POST_sample_success :
  POST (Sample.request (lit "https://example.com"))
  = Ok (json (SummaryBody Sample.answer) 200).
Proof. vm_compute. reflexivity. Qed.

Lemma POST_maps_failures_witness :
  POST Sample.blank_request = Ok (json (ErrorBody AucunContenu) 422).
Proof.
  destruct (POST_maps_failures Sample.blank_request) as (_ & _ & H).
  destruct (H (lit "https://example.com") eq_refl) as (_ & _ & Hvalid).
  destruct (Hvalid {| protocol := lit "https:";
                      href := lit "https://example.com/" |})
    as (_ & _ & Hempty & _).
  - discriminate.
  - reflexivity.
  - apply Hempty. reflexivity.
Defined.

(** C7.  The handler departs from the mapping on a url that is not a
    string.  The number 123 is not a valid URL, an input problem, yet the
    answer has status 500 with the engine's TypeError message: trimming it
    throws before any check is made, and the handler's last resort answers.
    The same characters sent as a string get the client error 400. *)
Lemma POST_of_numeric_url :
  submitted_url Sample.numeric_request = Some (JNum (lit "123"))
  /\ POST Sample.numeric_request = Ok (json (ErrorBody EngineTypeError) 500)
  /\ submitted_url (Sample.request (lit "123")) = Some (JStr (lit "123"))
  /\ POST (Sample.request (lit "123")) = Ok (json (ErrorBody UrlInvalide) 400).
Proof.
  repeat split; reflexivity.
Qed.

(** C10, as amended.  On a success, the original_url of the payload handed
    to the database is the serialization of the URL parsed from the
    submitted string (trimmed, as the handler does before parsing), not the
    string itself, and the url of the response is the original_url of the
    row the database returns.  With a database that returns the address it
    was given, the url of the response is that serialization too, and two
    submissions whose parsed URLs serialize alike get the same url. *)
Theorem response_url_is_canonical :
  (forall w s st,
      POST w = Ok (json (SummaryBody s) st) ->
      exists raw u ts reply row,
        submitted_url w = Some (JStr raw)
        /\ URL_new w (trim raw) = Some u
        /\ supabase_insert w (make_payload w u (fst ts) (snd ts)) = Ok reply
        /\ original_url (make_payload w u (fst ts) (snd ts)) = href u
        /\ data reply = Some row
        /\ url s = row_original_url row
        /\ (stores_url w -> url s = href u))
  /\ (forall w1 w2 s1 s2 st1 st2 raw1 raw2 u1 u2,
         stores_url w1 -> stores_url w2 ->
         POST w1 = Ok (json (SummaryBody s1) st1) ->
         POST w2 = Ok (json (SummaryBody s2) st2) ->
         submitted_url w1 = Some (JStr raw1) ->
         submitted_url w2 = Some (JStr raw2) ->
         URL_new w1 (trim raw1) = Some u1 ->
         URL_new w2 (trim raw2) = Some u2 ->
         href u1 = href u2 ->
         url s1 = url s2).
Proof.
  assert (Hone : forall w s st,
      POST w = Ok (json (SummaryBody s) st) ->
      exists raw u ts reply row,
        submitted_url w = Some (JStr raw)
        /\ URL_new w (trim raw) = Some u
        /\ supabase_insert w (make_payload w u (fst ts) (snd ts)) = Ok reply
        /\ original_url (make_payload w u (fst ts) (snd ts)) = href u
        /\ data reply = Some row
        /\ url s = row_original_url row
        /\ (stores_url w -> url s = href u)).
  { intros w s st H. apply POST_summary_inv in H.
    destruct H as (raw & u & text & ts & reply & row & H).
    destruct H as (Eu & _ & Ep & _ & _ & _ & Ei & _ & Ed & _ & ->).
    exists raw, u, ts, reply, row. split; [exact Eu|]. split.
    - unfold parse_http_url in Ep.
      destruct (URL_new w (trim raw)) as [u'|]; [|discriminate].
      destruct (is_http (protocol u')); congruence.
    - split; [exact Ei|]. split; [reflexivity|]. split; [exact Ed|].
      split; [reflexivity|].
      intros Hstore. cbn [url]. now rewrite (Hstore _ _ _ Ei Ed). }
  split; [exact Hone|].
  intros w1 w2 s1 s2 st1 st2 raw1 raw2 u1 u2 Hs1 Hs2 H1 H2 E1 E2 P1 P2 Hh.
  destruct (Hone _ _ _ H1) as (r1 & v1 & _ & _ & _ & E1' & P1' & _ & _ & _ & _ & K1).
  destruct (Hone _ _ _ H2) as (r2 & v2 & _ & _ & _ & E2' & P2' & _ & _ & _ & _ & K2).
  rewrite (K1 Hs1), (K2 Hs2). congruence.
Qed.

Lemma Sample_store_stores_url (body : value) (doc : list node)
      (content : value) (stored : option str) :
  stores_url (Sample.world body doc content stored).
Proof.
  intros p reply row H Hd. simpl in H. unfold Sample.store in H.
  injection H as <-. simpl in Hd. injection Hd as <-. reflexivity.
Qed.

Lemma response_url_is_canonical_witness :
  exists raw u,
    submitted_url (Sample.request (lit " https://example.com ")) = Some (JStr raw)
    /\ URL_new (Sample.request (lit " https://example.com ")) (trim raw) = Some u
    /\ url Sample.answer = href u.
Proof.
  destruct response_url_is_canonical as [H _].
  destruct (H (Sample.request (lit " https://example.com ")) Sample.answer 200)
    as (raw & u & ts & reply & row & E1 & E2 & _ & _ & _ & _ & Hs);
    [reflexivity|].
  exists raw, u. split; [exact E1|]. split; [exact E2|].
  apply Hs. apply Sample_store_stores_url.
Defined.

(** C10, as stated, fails: the url of the response is read from the row
    the database returns.  With a database whose address column drops a
    final slash, the payload carries the serialization of the parsed URL
    and the response does not. *)
Lemma response_url_of_rewriting_database :
  POST (Sample.rewriting_request (lit "https://example.com"))
  = Ok (json (SummaryBody Sample.rewritten_answer) 200)
  /\ URL_new (Sample.rewriting_request (lit "https://example.com"))
             (trim (lit "https://example.com"))
     = Some {| protocol := lit "https:"; href := lit "https://example.com/" |}
  /\ url Sample.rewritten_answer <> lit "https://example.com/"
  /\ ~ stores_url (Sample.rewriting_request (lit "https://example.com")).
Proof.
  split; [vm_compute; reflexivity|].
  split; [vm_compute; reflexivity|].
  split; [discriminate|].
  intros H.
  specialize (H {| original_url := lit "https://example.com/";
                   p_title := []; p_summary := [] |} _ _ eq_refl eq_refl).
  vm_compute in H. discriminate.
Qed.

(** ** Extractor *)

Lemma node_nested_ind (P : node -> Prop) :
  (forall d, P (Text d)) ->
  (forall d, P (Comment d)) ->
  (forall tag children, Forall P children -> P (Element tag children)) ->
  (forall children, Forall P children -> P (Document children)) ->
  forall n, P n.
Proof.
  intros HT HC HE HD. fix IH 1. intros [d|d|tag children|children].
  - apply HT.
  - apply HC.
  - apply HE. induction children as [|c cs IHcs]; constructor.
    + apply IH.
    + exact IHcs.
  - apply HD. induction children as [|c cs IHcs]; constructor.
    + apply IH.
    + exact IHcs.
Qed.

Lemma flat_map_ext_Forall {A B} (f g : A -> list B) (l : list A) :
  Forall (fun x => f x = g x) l -> flat_map f l = flat_map g l.
Proof.
  induction 1 as [|x l Hx _ IH]; simpl; [reflexivity | now rewrite Hx, IH].
Qed.

Lemma filter_flat_map {A B} (keep : B -> bool) (f : A -> list B) (l : list A) :
  filter keep (flat_map f l) = flat_map (fun x => filter keep (f x)) l.
Proof.
  induction l as [|x l IH]; simpl; [reflexivity|].
  now rewrite filter_app, IH.
Qed.

Lemma map_flat_map {A B C} (h : B -> C) (f : A -> list B) (l : list A) :
  map h (flat_map f l) = flat_map (fun x => map h (f x)) l.
Proof.
  induction l as [|x l IH]; simpl; [reflexivity|].
  now rewrite map_app, IH.
Qed.

(** Selecting is filtering the elements of the document, in document order. *)
Lemma select_in_elements (group : list selector) (n : node) :
  forall ancestors,
    select_in group ancestors n
    = map snd
        (filter (fun e => existsb (matches (fst e) (tag_of (snd e))) group)
                (elements_in ancestors n)).
Proof.
  assert (Hchildren : forall children inner,
    Forall (fun c => forall ancestors,
                select_in group ancestors c
                = map snd
                    (filter (fun e => existsb (matches (fst e) (tag_of (snd e)))
                                              group)
                            (elements_in ancestors c))) children ->
    flat_map (select_in group inner) children
    = map snd
        (filter (fun e => existsb (matches (fst e) (tag_of (snd e))) group)
                (flat_map (elements_in inner) children))).
  { intros children inner IH.
    rewrite filter_flat_map, map_flat_map. apply flat_map_ext_Forall.
    eapply Forall_impl; [|exact IH]. intros c Hc. apply Hc. }
  induction n as [d|d|tag children IH|children IH] using node_nested_ind;
    intros ancestors; try reflexivity.
  - cbn [select_in elements_in filter fst snd tag_of].
    rewrite (Hchildren _ _ IH).
    destruct (existsb (matches ancestors tag) group); reflexivity.
  - cbn [select_in elements_in]. apply Hchildren. exact IH.
Qed.

Lemma select_elements (group : list selector) (doc : list node) :
  select group doc
  = map snd
      (filter (fun e => existsb (matches (fst e) (tag_of (snd e))) group)
              (elements doc)).
Proof.
  unfold select, elements. rewrite filter_flat_map, map_flat_map.
  apply flat_map_ext_Forall. apply Forall_forall. intros n _.
  apply select_in_elements.
Qed.

Lemma scope_matches_one (region : string) (ancestors : list str) :
  scope_matches [region] ancestors = existsb (str_eqb (lit region)) ancestors.
Proof.
  induction ancestors as [|a anc IH]; [reflexivity|].
  cbn [scope_matches existsb]. destruct (str_eqb (lit region) a); [|exact IH].
  now destruct anc.
Qed.

Lemma scope_matches_none (ancestors : list str) :
  scope_matches [] ancestors = true.
Proof. now destruct ancestors. Qed.

Lemma filter_ext_all {A} (f g : A -> bool) (l : list A) :
  (forall x, f x = g x) -> filter f l = filter g l.
Proof. intros H. apply filter_ext. exact H. Qed.

Lemma candidate_within (region : string) (tags : list string) (doc : list node) :
  candidate (map (within region) tags) doc
  = join SEPARATOR
      (map (fun e => text (snd e))
           (filter (tagged_within region tags) (elements doc))).
Proof.
  unfold candidate. rewrite select_elements, map_map. do 2 f_equal.
  apply filter_ext_all. intros [anc n]. unfold tagged_within. cbn [fst snd].
  induction tags as [|t tags IH]; [reflexivity|].
  cbn [map existsb]. rewrite IH. unfold matches at 1. cbn [within target scope].
  rewrite scope_matches_one.
  destruct (str_eqb (lit t) (tag_of n)), (existsb (str_eqb (lit region)) anc),
    (existsb (fun t0 => str_eqb (lit t0) (tag_of n)) tags); reflexivity.
Qed.

Lemma candidate_anywhere (tags : list string) (doc : list node) :
  candidate (map anywhere tags) doc
  = join SEPARATOR
      (map (fun e => text (snd e)) (filter (tagged tags) (elements doc))).
Proof.
  unfold candidate. rewrite select_elements, map_map. do 2 f_equal.
  apply filter_ext_all. intros [anc n]. unfold tagged. cbn [fst snd].
  induction tags as [|t tags IH]; [reflexivity|].
  cbn [map existsb]. rewrite IH. unfold matches at 1. cbn [anywhere target scope].
  rewrite scope_matches_none. now rewrite andb_true_r.
Qed.




(** A paragraph in the content of a template is not below the article the
    template is in, but its text is part of the text of the paragraph that
    holds the template; without an article around it, it is one more
    paragraph of the page. *)
Example template_content_is_a_document_of_its_own :
  elements Sample.template_page
  = [([], Sample.element "article"
            [Sample.element "p"
               [Text (lit "a");
                Sample.element "template"
                  [Document [Text (lit "b");
                             Sample.element "p" [Text (lit "c")]]]]]);
     ([lit "article"],
      Sample.element "p"
        [Text (lit "a");
         Sample.element "template"
           [Document [Text (lit "b"); Sample.element "p" [Text (lit "c")]]]]);
     ([lit "article"; lit "p"],
      Sample.element "template"
        [Document [Text (lit "b"); Sample.element "p" [Text (lit "c")]]]);
     ([], Sample.element "p" [Text (lit "c")])]
  /\ candidate ARTICLE_SELECTOR Sample.template_page = lit "abc"
  /\ readableText Sample.template_page = lit "abc"
  /\ candidate PARA_SELECTOR
       [Sample.element "template"
          [Document [Text (lit "b"); Sample.element "p" [Text (lit "c")]]]]
     = lit "c".
Proof.
  repeat split; vm_compute; reflexivity.
Qed.


(** ** HistoryStore *)

Lemma NoDup_map_filter {A B} (g : A -> B) (keep : A -> bool) (l : list A) :
  NoDup (map g l) -> NoDup (map g (filter keep l)).
Proof.
  induction l as [|a l IH]; simpl; intros H; [constructor|].
  inversion H as [|? ? Hnotin Hrest]; subst.
  destruct (keep a); simpl; [|now apply IH].
  constructor; [|now apply IH].
  intros Hin. apply Hnotin. apply in_map_iff in Hin as (x & Hx & Hin).
  apply filter_In in Hin as [Hin _]. apply in_map_iff. eauto.
Qed.

Lemma filter_twice_none {A} (keep : A -> bool) (l : list A) :
  filter keep (filter (fun x => negb (keep x)) l) = [].
Proof.
  induction l as [|a l IH]; simpl; [reflexivity|].
  destruct (keep a) eqn:E; simpl; [exact IH | now rewrite E].
Qed.

(** C8.  upsertByUrl removes every element whose url equals the entry's
    and puts the entry in front: the entry is at index 0 and is the only
    element of the result with its url; the rest of the result is the
    input without the removed elements, in the input's order.  A history
    is a list in which no url is repeated: the result of an upsert on a
    history has at most one element per url.  The two sample calls yield
    the replaced and promoted lists. *)
Theorem upsertByUrl_replaces_and_promotes :
  (forall items entry,
      let result := upsertByUrl items entry in
      nth_error result 0 = Some entry
      /\ filter (fun i => str_eqb (url i) (url entry)) result = [entry]
      /\ tl result
         = filter (fun i => negb (str_eqb (url i) (url entry))) items
      /\ (forall x, In x (tl result) <-> In x items /\ url x <> url entry)
      /\ (unique_urls items -> unique_urls result))
  /\ upsertByUrl [Sample.entry 1 "a"] (Sample.entry 2 "a")
     = [Sample.entry 2 "a"]
  /\ upsertByUrl [Sample.entry 1 "a"; Sample.entry 2 "b"] (Sample.entry 3 "b")
     = [Sample.entry 3 "b"; Sample.entry 1 "a"].
Proof.
  split; [|split; reflexivity].
  intros items entry result. subst result. unfold upsertByUrl.
  split; [reflexivity|]. split.
  { cbn [filter]. rewrite str_eqb_refl. f_equal.
    apply (filter_twice_none (fun i => str_eqb (url i) (url entry))). }
  split; [reflexivity|]. split.
  - intros x. cbn [tl]. rewrite filter_In, negb_true_iff, str_eqb_neq. tauto.
  - unfold unique_urls. intros Huniq. cbn [map]. constructor.
    + intros Hin. apply in_map_iff in Hin as (x & Hx & Hin).
      apply filter_In in Hin as [_ Hne].
      apply negb_true_iff, str_eqb_neq in Hne. congruence.
    + now apply NoDup_map_filter.
Qed.

Lemma upsertByUrl_replaces_and_promotes_witness :
  unique_urls (upsertByUrl [Sample.entry 1 "a"; Sample.entry 2 "b"]
                           (Sample.entry 3 "b")).
Proof.
  destruct upsertByUrl_replaces_and_promotes as [H _].
  apply (H [Sample.entry 1 "a"; Sample.entry 2 "b"] (Sample.entry 3 "b")).
  unfold unique_urls. simpl. constructor.
  - intros [H1|[]]. discriminate.
  - constructor; [intros [] | constructor].
Defined.

(** Only the entry's url is looked for: a list that is not a history, for
    holding another url twice, still holds it twice after the upsert. *)
Lemma upsertByUrl_keeps_other_duplicates :
  upsertByUrl [Sample.entry 1 "b"; Sample.entry 2 "b"] (Sample.entry 3 "a")
  = [Sample.entry 3 "a"; Sample.entry 1 "b"; Sample.entry 2 "b"]
  /\ ~ unique_urls (upsertByUrl [Sample.entry 1 "b"; Sample.entry 2 "b"]
                                (Sample.entry 3 "a")).
Proof.
  split; [reflexivity|].
  unfold unique_urls. simpl. intros H.
  inversion H as [|? ? _ H']; subst.
  inversion H' as [|? ? Hnotin _]; subst.
  apply Hnotin. left. reflexivity.
Qed.

(** C9.  loadLocalHistory never raises: it returns the empty list when
    there is no window, when reading the storage throws, when nothing is
    stored, when the stored text is not valid JSON and when it parses to
    something that is not an array; when it parses to an array it returns
    the array's elements. *)
Theorem loadLocalHistory_never_raises (st : Storage) :
  (exists items, loadLocalHistory st = Ok items)
  /\ (st = NoWindow -> loadLocalHistory st = Ok [])
  /\ (forall e, st = Window (Throw e) -> loadLocalHistory st = Ok [])
  /\ (st = Window (Ok None) -> loadLocalHistory st = Ok [])
  /\ (forall stored, st = Window (Ok (Some stored)) ->
      (JSON_parse stored = None -> loadLocalHistory st = Ok [])
      /\ (forall v, JSON_parse stored = Some v ->
                    (forall items, v <> JArr items) ->
                    loadLocalHistory st = Ok [])
      /\ (forall items, JSON_parse stored = Some (JArr items) ->
                        loadLocalHistory st = Ok items)).
Proof.
  assert (Hstored : forall stored,
    loadLocalHistory (Window (Ok (Some stored)))
    = match JSON_parse stored with
      | Some (JArr items) => Ok items
      | _ => Ok []
      end).
  { intros [|c r]; [reflexivity|].
    unfold loadLocalHistory, loadLocalHistory_try. simpl.
    destruct (JSON_parse (c :: r)) as [[| | | |items|]|]; reflexivity. }
  split.
  - destruct st as [|[[stored|]|e]]; try (eexists; reflexivity).
    rewrite Hstored.
    destruct (JSON_parse stored) as [[| | | |items|]|]; eexists; reflexivity.
  - split; [intros ->; reflexivity|].
    split; [intros e ->; reflexivity|].
    split; [intros ->; reflexivity|].
    intros stored ->. rewrite Hstored. split; [intros ->; reflexivity|]. split.
    + intros v -> Hv. destruct v; try reflexivity. exfalso. now apply (Hv items).
    + intros items ->. reflexivity.
Qed.

Lemma loadLocalHistory_never_raises_witness :
  loadLocalHistory (Window (Ok (Some (lit "{not json")))) = Ok [].
Proof.
  destruct (loadLocalHistory_never_raises
              (Window (Ok (Some (lit "{not json")))))
    as (_ & _ & _ & _ & H).
  destruct (H (lit "{not json") eq_refl) as [Hbad _].
  apply Hbad. reflexivity.
Defined.

(* ================================================================== *)
(** * Further properties *)
(* ================================================================== *)

(** ** Normalizer / Clamper, continued *)

Lemma words_from_word (w cur s : str) :
  forallb (fun c => negb (is_ws c)) w = true ->
  words_from cur (w ++ s) = words_from (cur ++ w) s.
Proof.
  revert cur; induction w as [|c w IH]; intros cur H; simpl.
  - now rewrite app_nil_r.
  - simpl in H. apply andb_true_iff in H as [Hc Hw].
    destruct (is_ws c); [discriminate|].
    rewrite IH by exact Hw. now rewrite <- app_assoc.
Qed.

(** A word: not empty and free of whitespace. *)
Lemma words_from_are_words (s cur : str) :
  forallb (fun c => negb (is_ws c)) cur = true ->
  Forall (fun w => w <> [] /\ forallb (fun c => negb (is_ws c)) w = true)
         (words_from cur s).
Proof.
  revert cur; induction s as [|c s IH]; intros cur Hcur; simpl.
  - destruct cur; constructor; [split; [discriminate | exact Hcur] | constructor].
  - destruct (is_ws c) eqn:E.
    + destruct cur as [|x cur]; [now apply IH|].
      constructor; [split; [discriminate | exact Hcur] | now apply IH].
    + apply IH. now apply is_ws_negb_snoc.
Qed.

Lemma words_of_joined (ws : list str) :
  Forall (fun w => w <> [] /\ forallb (fun c => negb (is_ws c)) w = true) ws ->
  words (join [SP] ws) = ws.
Proof.
  unfold words. induction 1 as [|w ws [Hne Hw] Hws IH]; [reflexivity|].
  rewrite join_cons. destruct ws as [|w2 ws'].
  - pose proof (words_from_word w [] [] Hw) as E. rewrite app_nil_r in E.
    rewrite E. simpl. destruct w; [congruence | reflexivity].
  - rewrite words_from_word by exact Hw. simpl app.
    cbn [words_from]. rewrite is_ws_SP.
    destruct w as [|c w]; [congruence|]. f_equal. exact IH.
Qed.

(** X1.  Collapsing twice is collapsing once. *)
Theorem normalizeWhitespace_idempotent (text : str) :
  normalizeWhitespace (normalizeWhitespace text) = normalizeWhitespace text.
Proof.
  rewrite (normalizeWhitespace_words text).
  rewrite normalizeWhitespace_words. f_equal.
  apply words_of_joined. apply words_from_are_words. reflexivity.
Qed.

Lemma no_double_space_word (w r : str) :
  forallb (fun c => negb (is_ws c)) w = true ->
  starts_clean r = true -> no_double_space r = true ->
  no_double_space (w ++ SP :: r) = true.
Proof.
  intros Hw Hr Hn. induction w as [|c w IH].
  - cbn [app no_double_space]. destruct r as [|d r]; [reflexivity|].
    cbn [starts_clean] in Hr. apply negb_true_iff in Hr.
    rewrite is_ws_SP, Hr. exact Hn.
  - simpl in Hw. apply andb_true_iff in Hw as [Hc Hw].
    apply negb_true_iff in Hc. specialize (IH Hw).
    change ((c :: w) ++ SP :: r) with (c :: (w ++ SP :: r)).
    cbn [no_double_space]. destruct (w ++ SP :: r) eqn:E; [reflexivity|].
    now rewrite Hc.
Qed.

Lemma no_double_space_clean_word (w : str) :
  forallb (fun c => negb (is_ws c)) w = true -> no_double_space w = true.
Proof.
  induction w as [|c w IH]; [reflexivity|]. simpl. intros H.
  apply andb_true_iff in H as [Hc Hw]. apply negb_true_iff in Hc.
  destruct w; [reflexivity|]. rewrite Hc. now apply IH.
Qed.

Lemma joined_words_shape (ws : list str) :
  Forall (fun w => w <> [] /\ forallb (fun c => negb (is_ws c)) w = true) ws ->
  let s := join [SP] ws in
  starts_clean s = true
  /\ starts_clean (rev s) = true
  /\ no_double_space s = true
  /\ Forall (fun c => is_ws c = true -> c = SP) s.
Proof.
  induction 1 as [|w ws [Hne Hw] Hws IH]; [repeat split; constructor|].
  cbn zeta in *. rewrite join_cons.
  assert (Hhead : starts_clean w = true).
  { destruct w as [|c w]; [congruence|]. simpl in *.
    now apply andb_true_iff in Hw as [Hc _]. }
  assert (Hlast : starts_clean (rev w) = true).
  { assert (Hr : forallb (fun c => negb (is_ws c)) (rev w) = true).
    { apply forallb_forall. intros c Hc. apply in_rev in Hc.
      now apply (proj1 (forallb_forall _ _) Hw). }
    destruct (rev w) as [|c r]; [reflexivity|]. simpl in *.
    now apply andb_true_iff in Hr as [Hc _]. }
  assert (Hchars : Forall (fun c => is_ws c = true -> c = SP) w).
  { apply Forall_forall. intros c Hc Hws'.
    apply (proj1 (forallb_forall _ _) Hw) in Hc. rewrite Hws' in Hc. discriminate. }
  destruct ws as [|w2 ws'].
  - repeat split; auto. now apply no_double_space_clean_word.
  - destruct IH as (H1 & H2 & H3 & H4). repeat split.
    + destruct w; [congruence|]. exact Hhead.
    + assert (Hjn : join [SP] (w2 :: ws') <> []).
      { intros Hj. apply join_nil_iff in Hj; [discriminate|].
        eapply Forall_impl; [|exact Hws]. now intros a [Ha _]. }
      remember (join [SP] (w2 :: ws')) as J eqn:EJ. clear EJ.
      rewrite !rev_app_distr.
      destruct (rev J) as [|c r] eqn:E.
      * exfalso. apply Hjn. apply (f_equal (@rev _)) in E.
        now rewrite rev_involutive in E.
      * exact H2.
    + now apply no_double_space_word.
    + apply Forall_app. split; [exact Hchars|].
      constructor; [reflexivity | exact H4].
Qed.

Lemma collapsed_shape (text : str) :
  let s := normalizeWhitespace text in
  starts_clean s = true
  /\ starts_clean (rev s) = true
  /\ no_double_space s = true
  /\ Forall (fun c => is_ws c = true -> c = SP) s.
Proof.
  cbn zeta. rewrite normalizeWhitespace_words.
  apply joined_words_shape. apply words_from_are_words. reflexivity.
Qed.

(** X2.  A collapsed text neither starts nor ends with whitespace, has no
    two whitespace characters side by side, and its only whitespace
    character is the space. *)
Theorem normalizeWhitespace_shape (text : str) :
  let s := normalizeWhitespace text in
  starts_clean s = true
  /\ starts_clean (rev s) = true
  /\ no_double_space s = true
  /\ Forall (fun c => is_ws c = true -> c = SP) s.
Proof.
  cbn zeta. rewrite normalizeWhitespace_words.
  apply joined_words_shape. apply words_from_are_words. reflexivity.
Qed.

Lemma filter_replace_ws_runs (b : bool) (s : str) :
  filter (fun c => negb (is_ws c)) (replace_ws_runs b s)
  = filter (fun c => negb (is_ws c)) s.
Proof.
  revert b; induction s as [|c s IH]; intros b; [reflexivity|].
  simpl. destruct (is_ws c) eqn:E; simpl.
  - destruct b; simpl; apply IH.
  - rewrite E. simpl. now rewrite IH.
Qed.

Lemma filter_trimStart (s : str) :
  filter (fun c => negb (is_ws c)) (trimStart s)
  = filter (fun c => negb (is_ws c)) s.
Proof.
  induction s as [|c s IH]; [reflexivity|]. simpl.
  destruct (is_ws c) eqn:E; simpl; [exact IH | now rewrite E].
Qed.

Lemma filter_trimEnd (s : str) :
  filter (fun c => negb (is_ws c)) (trimEnd s)
  = filter (fun c => negb (is_ws c)) s.
Proof.
  induction s as [|c s IH]; [reflexivity|]. rewrite trimEnd_cons.
  simpl filter at 2. destruct (trimEnd s) as [|x t].
  - simpl in IH. rewrite <- IH. destruct (is_ws c) eqn:E; simpl; [reflexivity|].
    now rewrite E.
  - simpl filter at 1. now rewrite <- IH.
Qed.

Lemma length_replace_ws_runs (b : bool) (s : str) :
  (List.length (replace_ws_runs b s) <= List.length s)%nat.
Proof.
  revert b; induction s as [|c s IH]; intros b; simpl; [lia|].
  destruct (is_ws c); [destruct b|]; simpl;
    try (specialize (IH true); lia); specialize (IH false); lia.
Qed.

Lemma length_trimStart (s : str) :
  (List.length (trimStart s) <= List.length s)%nat.
Proof.
  induction s as [|c s IH]; simpl; [lia|]. destruct (is_ws c); simpl; lia.
Qed.

Lemma length_trimEnd (s : str) :
  (List.length (trimEnd s) <= List.length s)%nat.
Proof.
  induction s as [|c s IH]; [simpl; lia|]. rewrite trimEnd_cons.
  destruct (trimEnd s); [destruct (is_ws c)|]; simpl in *; lia.
Qed.

(** X3.  Collapsing keeps every character that is not whitespace, in
    order, and never makes the text longer. *)
Theorem normalizeWhitespace_keeps_text (text : str) :
  filter (fun c => negb (is_ws c)) (normalizeWhitespace text)
  = filter (fun c => negb (is_ws c)) text
  /\ JS.length (normalizeWhitespace text) <= JS.length text.
Proof.
  unfold normalizeWhitespace, trim. split.
  - now rewrite filter_trimEnd, filter_trimStart, filter_replace_ws_runs.
  - unfold JS.length.
    pose proof (length_trimEnd (trimStart (replace_ws_runs false text))).
    pose proof (length_trimStart (replace_ws_runs false text)).
    pose proof (length_replace_ws_runs false text). lia.
Qed.

(** X4.  With a budget that is not negative, the clamped text is the
    prefix of the text whose length is the smaller of the text's length
    and the budget; a text within the budget is returned as it is, and
    clamping again changes nothing. *)
Theorem clamp_within_budget (text : str) (maxChars : Z) :
  0 <= maxChars ->
  JS.length (clamp text maxChars) = Z.min (JS.length text) maxChars
  /\ prefix_of (clamp text maxChars) text
  /\ (JS.length text <= maxChars -> clamp text maxChars = text)
  /\ clamp (clamp text maxChars) maxChars = clamp text maxChars.
Proof.
  intros Hm. rewrite !clamp_firstn by exact Hm. repeat split.
  - unfold JS.length. rewrite length_firstn. lia.
  - exists (skipn (Z.to_nat maxChars) text). symmetry. apply firstn_skipn.
  - intros Hlen. apply firstn_all2. unfold JS.length in Hlen. lia.
  - rewrite firstn_firstn. f_equal. lia.
Qed.

Lemma clamp_within_budget_witness :
  JS.length (clamp (lit "It rained all day.") 9) = 9.
Proof.
  apply (clamp_within_budget (lit "It rained all day.") 9). lia.
Defined.

(** X5.  A negative budget counts from the end: the clamped text is the
    text without its last -maxChars characters, and empty when the text
    has no more than that. *)
Theorem clamp_negative_budget (text : str) (maxChars : Z) :
  maxChars < 0 ->
  clamp text maxChars = firstn (Z.to_nat (JS.length text + maxChars)) text
  /\ JS.length (clamp text maxChars) = Z.max (JS.length text + maxChars) 0.
Proof.
  intros Hm. pose proof (length_nonneg text) as Hl.
  assert (H : clamp text maxChars
              = firstn (Z.to_nat (JS.length text + maxChars)) text).
  { unfold clamp. destruct (Z.leb_spec (JS.length text) maxChars); [lia|].
    unfold slice. simpl (0 <? 0). destruct (Z.ltb_spec maxChars 0); [|lia].
    rewrite (Z.min_l 0) by lia. simpl skipn. rewrite Z.sub_0_r.
    f_equal. lia. }
  split; [exact H|]. rewrite H. unfold JS.length in *.
  rewrite length_firstn. lia.
Qed.

Lemma clamp_negative_budget_witness :
  clamp (lit "abcdef") (-2) = lit "abcd".
Proof.
  destruct (clamp_negative_budget (lit "abcdef") (-2)) as [H _]; [lia|].
  exact H.
Defined.

Lemma starts_clean_firstn (n : nat) (s : str) :
  starts_clean s = true -> starts_clean (firstn n s) = true.
Proof. destruct n, s; simpl; auto. Qed.

Lemma no_double_space_firstn (n : nat) (s : str) :
  no_double_space s = true -> no_double_space (firstn n s) = true.
Proof.
  revert s; induction n as [|n IH]; intros s H; [reflexivity|].
  destruct s as [|c s]; [reflexivity|].
  rewrite firstn_cons. specialize (IH s).
  cbn [no_double_space] in *. destruct s as [|d s].
  - now rewrite firstn_nil.
  - apply andb_true_iff in H as [H1 H2].
    destruct n; [reflexivity|]. rewrite firstn_cons in *.
    rewrite H1. now apply IH.
Qed.

(** X6.  The text extracted from a document has at most 12,000
    characters, does not start with whitespace and has no two whitespace
    characters side by side (the cut may leave one space at its end). *)
Theorem readableText_shape (doc : list node) :
  JS.length (readableText doc) <= MAX_CHARS
  /\ starts_clean (readableText doc) = true
  /\ no_double_space (readableText doc) = true.
Proof.
  unfold readableText. cbv zeta.
  set (raw := or_else _ _).
  destruct (collapsed_shape raw) as (H1 & _ & H3 & _).
  rewrite clamp_firstn by (unfold MAX_CHARS; lia). repeat split.
  - unfold JS.length. rewrite length_firstn. unfold MAX_CHARS. lia.
  - now apply starts_clean_firstn.
  - now apply no_double_space_firstn.
Qed.

(** ** Extractor, continued *)

(** The ancestors recorded for an element are elements of the document. *)
Lemma ancestors_in_elements (n : node) :
  forall outer anc m t,
    In (anc, m) (elements_in outer n) -> In t anc ->
    In t outer
    \/ exists e, In e (elements_in outer n) /\ tag_of (snd e) = t.
Proof.
  induction n as [d|d|tag children IH|children IH] using node_nested_ind;
    intros outer anc m t Hin Ht; try contradiction.
  - cbn [elements_in] in *. destruct Hin as [[= <- <-]|Hin]; [now left|].
    apply in_flat_map in Hin as (c & Hc & Hin).
    rewrite Forall_forall in IH.
    destruct (IH c Hc _ _ _ _ Hin Ht) as [Hout|(e & He & Htag)].
    + apply in_app_or in Hout as [Hout|[<-|[]]]; [now left|].
      right. exists (outer, Element tag children).
      split; [now left | reflexivity].
    + right. exists e. split; [|exact Htag].
      right. apply in_flat_map. eauto.
  - cbn [elements_in] in *.
    apply in_flat_map in Hin as (c & Hc & Hin).
    rewrite Forall_forall in IH.
    destruct (IH c Hc _ _ _ _ Hin Ht) as [[]|(e & He & Htag)].
    right. exists e. split; [|exact Htag].
    apply in_flat_map. eauto.
Qed.

Lemma no_region_no_scope (region : string) (doc : list node) :
  has_element region doc = false ->
  forall e, In e (elements doc) ->
            existsb (str_eqb (lit region)) (fst e) = false.
Proof.
  intros Hno [anc m] Hin. cbn [fst].
  destruct (existsb (str_eqb (lit region)) anc) eqn:E; [|reflexivity].
  apply existsb_exists in E as (t & Ht & Heq). apply str_eqb_spec in Heq.
  subst t. unfold elements in Hin. apply in_flat_map in Hin as (n & Hn & Hin).
  destruct (ancestors_in_elements n [] anc m _ Hin Ht) as [[]|(e & He & Htag)].
  unfold has_element in Hno.
  assert (Hex : existsb (fun e => str_eqb (lit region) (tag_of (snd e)))
                        (elements doc) = true).
  { apply existsb_exists. exists e. split.
    - unfold elements. apply in_flat_map. eauto.
    - rewrite Htag. apply str_eqb_refl. }
  congruence.
Qed.

Lemma filter_none {A} (keep : A -> bool) (l : list A) :
  (forall x, In x l -> keep x = false) -> filter keep l = [].
Proof.
  induction l as [|a l IH]; intros H; [reflexivity|]. simpl.
  rewrite (H a (or_introl eq_refl)). apply IH. intros x Hx. apply H. now right.
Qed.

Lemma candidate_without_region (region : string) (tags : list string)
      (doc : list node) :
  has_element region doc = false ->
  candidate (map (within region) tags) doc = [].
Proof.
  intros Hno. rewrite candidate_within, filter_none; [reflexivity|].
  intros e He. unfold tagged_within.
  rewrite (no_region_no_scope region doc Hno e He). apply andb_false_r.
Qed.

Lemma no_tag_not_tagged (tags : list string) (doc : list node) :
  (forall t, In t tags -> has_element t doc = false) ->
  forall e, In e (elements doc) -> tagged tags e = false.
Proof.
  intros Hno e He. unfold tagged.
  destruct (existsb _ tags) eqn:E; [|reflexivity].
  apply existsb_exists in E as (t & Ht & Heq).
  specialize (Hno t Ht). unfold has_element in Hno.
  assert (Hex : existsb (fun e => str_eqb (lit t) (tag_of (snd e)))
                        (elements doc) = true)
    by (apply existsb_exists; eauto).
  congruence.
Qed.

(** X7.  On a page with neither an article nor a main element, the text
    extracted is the text of all its paragraphs, collapsed and clamped. *)
Theorem readableText_falls_back_to_paragraphs (doc : list node) :
  has_element "article" doc = false ->
  has_element "main" doc = false ->
  readableText doc
  = clamp (normalizeWhitespace (candidate PARA_SELECTOR doc)) MAX_CHARS.
Proof.
  intros Ha Hm. unfold readableText. cbv zeta.
  change ARTICLE_SELECTOR
    with (map (within "article") ["p"; "h1"; "h2"; "li"]%string).
  change MAIN_SELECTOR with (map (within "main") ["p"; "li"]%string).
  now rewrite !candidate_without_region.
Qed.

Lemma readableText_falls_back_to_paragraphs_witness :
  readableText Fixture.plain_page
  = clamp (normalizeWhitespace (candidate PARA_SELECTOR Fixture.plain_page))
          MAX_CHARS.
Proof.
  apply (readableText_falls_back_to_paragraphs Fixture.plain_page);
    reflexivity.
Defined.

Lemma readableText_without_text_elements (doc : list node) :
  (forall t, In t ["p"; "h1"; "h2"; "li"]%string -> has_element t doc = false) ->
  readableText doc = [].
Proof.
  intros Hno. unfold readableText. cbv zeta.
  change ARTICLE_SELECTOR
    with (map (within "article") ["p"; "h1"; "h2"; "li"]%string).
  change MAIN_SELECTOR with (map (within "main") ["p"; "li"]%string).
  change PARA_SELECTOR with (map anywhere ["p"%string]).
  rewrite !candidate_within, candidate_anywhere.
  rewrite !filter_none; [reflexivity| | |].
  - apply no_tag_not_tagged. intros t [<-|[]]. apply Hno. now left.
  - intros e He. unfold tagged_within.
    change (existsb (fun t => str_eqb (lit t) (tag_of (snd e))) ["p"; "li"]%string)
      with (tagged ["p"; "li"]%string e).
    rewrite (no_tag_not_tagged ["p"; "li"]%string doc); [reflexivity| |exact He].
    intros t [<-|[<-|[]]]; apply Hno; simpl; auto.
  - intros e He. unfold tagged_within.
    change (existsb (fun t => str_eqb (lit t) (tag_of (snd e)))
                    ["p"; "h1"; "h2"; "li"]%string)
      with (tagged ["p"; "h1"; "h2"; "li"]%string e).
    now rewrite (no_tag_not_tagged _ doc Hno e He).
Qed.

(** X8.  A page without any p, h1, h2 or li element yields the empty text,
    whatever text its other elements hold, and the handler answers 422. *)
Theorem page_without_text_elements_is_unprocessable :
  (forall doc,
      (forall t, In t ["p"; "h1"; "h2"; "li"]%string ->
                 has_element t doc = false) ->
      readableText doc = [])
  /\ (forall w raw u res html,
         submitted_url w = Some (JStr raw) ->
         trim raw <> [] ->
         parse_http_url w (trim raw) = Some u ->
         fetch_page w (href u) = Ok res -> ok res = true ->
         body_text res = Ok html ->
         (forall t, In t ["p"; "h1"; "h2"; "li"]%string ->
                    has_element t (cheerio_load w html) = false) ->
         POST w = Ok (json (ErrorBody AucunContenu) 422)).
Proof.
  split; [exact readableText_without_text_elements|].
  intros w raw u res html Eu Hne Hu Hres Hok Hhtml Hno.
  rewrite POST_of_try, (POST_try_string w raw Eu).
  destruct (trim raw) as [|c0 t0]; [congruence|]. rewrite Hu.
  pose proof (summarize_and_store_cases w u) as Hc.
  assert (Hs : scrapeReadableText w (href u) = Ok []).
  { unfold scrapeReadableText. rewrite Hres. simpl. rewrite Hok. simpl.
    rewrite Hhtml. simpl. f_equal.
    now apply readableText_without_text_elements. }
  rewrite Hs in Hc. now rewrite Hc.
Qed.

Lemma page_without_text_elements_is_unprocessable_witness :
  POST Fixture.div_request = Ok (json (ErrorBody AucunContenu) 422).
Proof.
  destruct page_without_text_elements_is_unprocessable as [_ H].
  apply (H Fixture.div_request (lit "https://example.com")
           {| protocol := lit "https:"; href := lit "https://example.com/" |}
           Sample.page (lit "<html>")); try reflexivity.
  - discriminate.
  - intros t [<-|[<-|[<-|[<-|[]]]]]; reflexivity.
Defined.

(** ** RecoveringParser, continued *)

Lemma indexOf_after_prefix (pre rest : str) :
  ~ In LBRACE pre ->
  indexOf (pre ++ LBRACE :: rest) LBRACE = JS.length pre.
Proof.
  induction pre as [|c pre IH]; intros Hno; [reflexivity|].
  simpl app. cbn [indexOf]. destruct (N.eqb_spec c LBRACE) as [->|Hne].
  - exfalso. apply Hno. now left.
  - rewrite IH by (intros H; apply Hno; now right).
    rewrite length_cons. pose proof (length_nonneg pre).
    destruct (Z.ltb_spec (JS.length pre) 0); [lia | reflexivity].
Qed.

Lemma slice_inside (pre obj post : str) (k : nat) :
  (k <= List.length obj)%nat ->
  slice (pre ++ obj ++ post) (JS.length pre) (JS.length pre + Z.of_nat k)
  = firstn k obj.
Proof.
  intros Hk. pose proof (length_nonneg pre).
  rewrite slice_in_range.
  - unfold JS.length. rewrite Nat2Z.id.
    replace (Z.to_nat (Z.of_nat (List.length pre) + Z.of_nat k
                       - Z.of_nat (List.length pre))) with k by lia.
    rewrite skipn_app, skipn_all, Nat.sub_diag. simpl.
    rewrite firstn_app. replace (k - List.length obj)%nat with 0%nat by lia.
    simpl. now rewrite app_nil_r.
  - lia.
  - rewrite !length_app. unfold JS.length. lia.
Qed.

Lemma closes_only_at_end_spec (obj : str) (k : nat) :
  closes_only_at_end obj = true ->
  (0 < k < List.length obj)%nat ->
  brace_depth (firstn k obj) = 0 ->
  JSON_parse (firstn k obj) = None.
Proof.
  unfold closes_only_at_end. intros H Hk Hd.
  rewrite forallb_forall in H. specialize (H k).
  rewrite Hd in H. simpl in H.
  destruct (JSON_parse (firstn k obj)); [|reflexivity].
  discriminate H. apply in_seq. lia.
Qed.

(** X9.  An object wrapped in prose is recovered: when the text before it
    has no opening brace, the object text starts with one, its braces
    balance (counted character by character, those inside string literals
    included), it parses and no shorter balanced prefix of it does, and
    the whole text is not valid JSON, the parser returns the object
    whatever follows it. *)
Theorem embedded_object_is_recovered (pre obj post : str) (v : value) :
  ~ In LBRACE pre ->
  nth_error obj 0 = Some LBRACE ->
  brace_depth obj = 0 ->
  JSON_parse obj = Some v ->
  closes_only_at_end obj = true ->
  JSON_parse (pre ++ obj ++ post) = None ->
  extractFirstJsonObject (pre ++ obj ++ post) = Ok v.
Proof.
  intros Hpre Hhead Hdepth Hparse Honly Hwhole.
  destruct obj as [|c rest]; [discriminate|]. injection Hhead as ->.
  set (obj := LBRACE :: rest) in *.
  set (input := pre ++ obj ++ post) in *.
  set (start := JS.length pre).
  pose proof (length_nonneg pre) as Hstart. fold start in Hstart.
  assert (Hidx : indexOf input LBRACE = start)
    by (apply indexOf_after_prefix; exact Hpre).
  assert (Hlen : JS.length input
                 = start + Z.of_nat (List.length obj) + JS.length post).
  { unfold input, start. rewrite !length_app. unfold JS.length. lia. }
  assert (Hslice : forall k, (k <= List.length obj)%nat ->
            slice input start (start + Z.of_nat k) = firstn k obj)
    by (intros k Hk; now apply slice_inside).
  unfold extractFirstJsonObject. fold input. rewrite Hwhole, Hidx. cbv zeta.
  destruct (Z.eqb_spec start (-1)); [lia|].
  pose proof (length_nonneg post) as Hpost.
  pose proof (scan_balanced_spec input start Hstart
                (Z.to_nat (JS.length input - start)) start ltac:(lia) ltac:(lia))
    as H.
  rewrite slice_empty in H by lia. simpl brace_depth in H.
  set (j0 := start + Z.of_nat (List.length obj) - 1).
  assert (Hobj : List.length obj = S (List.length rest)) by reflexivity.
  assert (Hj0 : closes_at input start j0 v).
  { unfold closes_at, j0.
    replace (start + Z.of_nat (List.length obj) - 1 + 1)
      with (start + Z.of_nat (List.length obj)) by lia.
    rewrite Hslice, firstn_all by lia. repeat split; auto; lia. }
  destruct (scan_balanced input start _ start 0) as [v'|e].
  - destruct H as (j & Hj & (Hr & Hd & Hp) & Hbefore).
    destruct (Z.lt_trichotomy j j0) as [Hlt|[->|Hgt]].
    + exfalso.
      assert (Hk : j + 1 = start + Z.of_nat (Z.to_nat (j + 1 - start))) by lia.
      rewrite Hk in Hd, Hp. unfold j0 in Hlt.
      rewrite Hslice in Hd, Hp by lia.
      rewrite (closes_only_at_end_spec obj _ Honly) in Hp;
        [discriminate | lia | exact Hd].
    + destruct Hj0 as (_ & _ & Hp0). congruence.
    + exfalso. destruct Hj0 as (Hr0 & Hd0 & Hp0).
      specialize (Hbefore j0 ltac:(lia) Hd0). congruence.
  - exfalso. destruct H as [_ Hall]. destruct Hj0 as (Hr0 & Hd0 & Hp0).
    specialize (Hall j0 Hr0 Hd0). congruence.
Qed.

Lemma embedded_object_is_recovered_witness :
  extractFirstJsonObject
    (lit "Voici le resume : " ++ Fixture.completion_core ++ lit " Bonne lecture !")
  = Ok Sample.completion_object.
Proof.
  apply (embedded_object_is_recovered
           (lit "Voici le resume : ") Fixture.completion_core
           (lit " Bonne lecture !") Sample.completion_object).
  - vm_compute. intuition discriminate.
  - reflexivity.
  - reflexivity.
  - vm_compute. reflexivity.
  - vm_compute. reflexivity.
  - vm_compute. reflexivity.
Defined.

(** The scan counts the braces inside string literals as well: an object
    whose title holds a closing brace is not recovered from the prose
    around it. *)
Example object_with_brace_in_string :
  JSON_parse Fixture.brace_in_title
  = Some (JObj [(lit "title", JStr (lit "a}b"))])
  /\ brace_depth Fixture.brace_in_title = -1
  /\ extractFirstJsonObject (lit "Voici : " ++ Fixture.brace_in_title)
     = Throw (Error_ JsonInvalide).
Proof.
  repeat split; vm_compute; reflexivity.
Qed.

(** X10.  The parser throws one of two errors and no other: the first
    (JSON introuvable ...) exactly when the text is not valid JSON and has
    no opening brace, the second (Impossible d'extraire ...) only for a
    text that is not valid JSON and has an opening brace. *)
Theorem recovery_errors (input : str) :
  (extractFirstJsonObject input = Throw (Error_ JsonIntrouvable)
   <-> JSON_parse input = None /\ ~ In LBRACE input)
  /\ (forall e,
         extractFirstJsonObject input = Throw e ->
         JSON_parse input = None
         /\ (e = Error_ JsonIntrouvable
             \/ e = Error_ JsonInvalide /\ In LBRACE input)).
Proof.
  unfold extractFirstJsonObject.
  destruct (JSON_parse input) as [v|] eqn:Hp.
  - split; [split; [discriminate | intros [? _]; discriminate] | discriminate].
  - cbv zeta.
    destruct (indexOf_spec input LBRACE) as [[Hi Hno]|(Hr & Ha & Hf)].
    + rewrite Hi. simpl. split; [tauto|]. intros e [= <-]. auto.
    + destruct (Z.eqb_spec (indexOf input LBRACE) (-1)) as [E|E]; [lia|].
      assert (Hin : In LBRACE input).
      { unfold at_ in Ha. destruct (indexOf input LBRACE <? 0); [discriminate|].
        eapply nth_error_In; eauto. }
      pose proof (scan_balanced_spec input (indexOf input LBRACE) ltac:(lia)
                    (Z.to_nat (JS.length input - indexOf input LBRACE))
                    (indexOf input LBRACE) ltac:(lia) ltac:(lia)) as H.
      rewrite slice_empty in H by lia. simpl brace_depth in H.
      destruct (scan_balanced input _ _ _ 0) as [v|e].
      * split; [split; [discriminate | intros [_ Hno]; contradiction]
               | discriminate].
      * destruct H as [-> _]. split.
        -- split; [discriminate | intros [_ Hno]; contradiction].
        -- intros e [= <-]. auto.
Qed.

(** ** summarizeWithMistral *)

Lemma summarizeWithMistral_Ok_inv (w : World) (text : str) (ts : str * list str) :
  summarizeWithMistral w text = Ok ts ->
  (List.length (snd ts) <= 3)%nat
  /\ (exists c key, MISTRAL_API_KEY w = Some (c :: key))
  /\ (exists res, fetch_mistral w text = Ok res /\ ok res = true).
Proof.
  intros H. unfold summarizeWithMistral in H.
  destruct (MISTRAL_API_KEY w) as [[|c key]|]; try discriminate.
  destruct (fetch_mistral w text) as [res|e]; [|discriminate].
  simpl in H. destruct (ok res) eqn:Hok; [|discriminate]. simpl in H.
  destruct (body_json res) as [data|e]; [|discriminate]. simpl in H.
  destruct (prop _ "content") as [c0|]; [|discriminate].
  destruct (value_truthy _ _); [|discriminate].
  destruct (extractFirstJsonObject_any _ c0) as [parsed|e]; [|discriminate].
  cbn [bind] in H.
  destruct (assemble_points (Number_toString w) _) as [points|e] eqn:Ep;
    [|discriminate].
  cbn [bind] in H. injection H as <-.
  split; [eapply assemble_points_length; exact Ep|]. split; eauto.
Qed.

(** X11.  A completion is returned only when a key is configured and the
    service answered ok, and it never has more than three points; without
    a key the answer is the missing-key error whatever the service would
    have said. *)
Theorem summarizeWithMistral_result (w : World) (text : str) :
  (forall ts,
      summarizeWithMistral w text = Ok ts ->
      (List.length (snd ts) <= 3)%nat
      /\ (exists c key, MISTRAL_API_KEY w = Some (c :: key))
      /\ (exists res, fetch_mistral w text = Ok res /\ ok res = true))
  /\ (MISTRAL_API_KEY w = None \/ MISTRAL_API_KEY w = Some [] ->
      forall service db,
        summarizeWithMistral (with_services w (MISTRAL_API_KEY w) service db) text
        = Throw (Error_ CleManquante)).
Proof.
  split.
  - intros ts. apply summarizeWithMistral_Ok_inv.
  - intros Hkey service db. unfold summarizeWithMistral. simpl.
    destruct Hkey as [-> | ->]; reflexivity.
Qed.

Lemma summarizeWithMistral_result_witness :
  (List.length (snd (lit "A", [lit "x"; lit "y"])) <= 3)%nat.
Proof.
  destruct (summarizeWithMistral_result Fixture.faithful_world (lit "News"))
    as [H _].
  destruct (H (lit "A", [lit "x"; lit "y"])) as [Hlen _].
  - vm_compute. reflexivity.
  - exact Hlen.
Defined.

(** ** The POST handler, continued *)

Lemma summarize_and_store_status (w : World) (u : URL) (r : HttpResponse) :
  summarize_and_store w u = Ok r ->
  http_status r = 422 \/ http_status r = 500 \/ http_status r = 200.
Proof.
  pose proof (summarize_and_store_cases w u) as Hc.
  destruct (scrapeReadableText w (href u)) as [[|c t]|e];
    try (rewrite Hc; intros [= <-]; simpl; auto; fail).
  destruct (summarizeWithMistral w (c :: t)) as [ts|e];
    try (rewrite Hc; intros [= <-]; simpl; auto; fail).
  destruct (supabase_insert w _) as [reply|e];
    try (rewrite Hc; intros [= <-]; simpl; auto; fail).
  destruct (error reply); [rewrite Hc; intros [= <-]; simpl; auto|].
  destruct (data reply); rewrite Hc; intros [= <-]; simpl; auto.
Qed.

Lemma POST_when_rejected (w : World) (m : message) :
  url_rejection w = Some m -> POST w = Ok (json (ErrorBody m) 400).
Proof.
  unfold url_rejection. rewrite POST_of_try.
  destruct (submitted_url w) as [[| | |raw| |]|] eqn:Eu; try discriminate.
  - intros [= <-]. unfold POST_try. unfold submitted_url, request_body in Eu.
    now rewrite Eu.
  - rewrite (POST_try_string w raw Eu). destruct (trim raw) as [|c t].
    + now intros [= <-].
    + destruct (parse_http_url w (c :: t)); [discriminate|]. now intros [= <-].
  - intros [= <-]. unfold POST_try. unfold submitted_url, request_body in Eu.
    now rewrite Eu.
Qed.

Lemma POST_when_not_rejected (w : World) (r : HttpResponse) :
  url_rejection w = None -> POST w = Ok r -> http_status r <> 400.
Proof.
  unfold url_rejection. rewrite POST_of_try.
  destruct (submitted_url w) as [[| | |raw| |]|] eqn:Eu; try discriminate;
    intros Hrej.
  1, 2, 4, 5:
    unfold POST_try; unfold submitted_url, request_body in Eu; rewrite Eu;
    intros [= <-]; simpl; lia.
  rewrite (POST_try_string w raw Eu). destruct (trim raw) as [|c t];
    [discriminate|].
  destruct (parse_http_url w (c :: t)) as [u|]; [|discriminate].
  destruct (summarize_and_store w u) as [r'|e] eqn:E.
  - intros [= <-]. apply summarize_and_store_status in E. lia.
  - intros [= <-]. simpl. lia.
Qed.



Lemma url_rejection_same_request (w w' : World) :
  same_request w w' -> url_rejection w = url_rejection w'.
Proof.
  intros [Hreq Hurl]. unfold url_rejection, submitted_url, request_body.
  rewrite Hreq. destruct (prop _ "url") as [[| | |raw| |]|]; try reflexivity.
  destruct (trim raw) as [|c t]; [reflexivity|].
  unfold parse_http_url. now rewrite Hurl.
Qed.

(** X13.  A request that is answered 400 is answered without the network
    or the database: the same request gets the same answer in every world
    that has the same URL parser, whatever its page, completion service
    and database are. *)
Theorem rejected_request_touches_nothing (w w' : World) (r : HttpResponse) :
  same_request w w' ->
  POST w = Ok r -> http_status r = 400 ->
  POST w' = Ok r.
Proof.
  intros Hsame H Hst.
  destruct (url_rejection w) as [m|] eqn:Hrej.
  - rewrite (POST_when_rejected w m Hrej) in H. injection H as <-.
    apply POST_when_rejected.
    now rewrite <- (url_rejection_same_request w w' Hsame).
  - exfalso. now apply (POST_when_not_rejected w r Hrej H).
Qed.

Lemma rejected_request_touches_nothing_witness :
  POST (with_services (Sample.request (lit "ftp://example.com")) None
                      Fixture.broken_service Fixture.broken_store)
  = Ok (json (ErrorBody UrlInvalide) 400).
Proof.
  apply (rejected_request_touches_nothing
           (Sample.request (lit "ftp://example.com"))).
  - split; reflexivity.
  - reflexivity.
  - reflexivity.
Defined.

(** X14.  The database is consulted only after a completion: if replacing
    the database client changes the answer, then the url was accepted, the
    page gave a non-empty text and the completion service gave a result. *)
Theorem database_consulted_after_completion
        (w : World) (db : Payload -> result InsertReply) :
  POST (with_database w db) <> POST w ->
  exists raw u text ts,
    submitted_url w = Some (JStr raw)
    /\ parse_http_url w (trim raw) = Some u
    /\ scrapeReadableText w (href u) = Ok text /\ text <> []
    /\ summarizeWithMistral w text = Ok ts.
Proof.
  intros Hdiff.
  destruct (submitted_url w) as [[| | |raw| |]|] eqn:Eu;
    try (exfalso; apply Hdiff; rewrite !POST_of_try; unfold POST_try;
         unfold submitted_url, request_body in Eu;
         change (req_json (with_database w db)) with (req_json w);
         rewrite Eu; reflexivity).
  assert (Eu' : submitted_url (with_database w db) = Some (JStr raw)) by exact Eu.
  rewrite !POST_of_try, (POST_try_string w raw Eu),
    (POST_try_string _ raw Eu') in Hdiff.
  change (parse_http_url (with_database w db) (trim raw))
    with (parse_http_url w (trim raw)) in Hdiff.
  destruct (trim raw) as [|c0 t0] eqn:Et; [congruence|].
  destruct (parse_http_url w (c0 :: t0)) as [u|] eqn:Ep; [|congruence].
  pose proof (summarize_and_store_cases w u) as Hc.
  pose proof (summarize_and_store_cases (with_database w db) u) as Hc'.
  change (scrapeReadableText (with_database w db) (href u))
    with (scrapeReadableText w (href u)) in Hc'.
  destruct (scrapeReadableText w (href u)) as [[|c t]|e] eqn:Es;
    try (exfalso; apply Hdiff; rewrite Hc, Hc'; reflexivity).
  change (summarizeWithMistral (with_database w db) (c :: t))
    with (summarizeWithMistral w (c :: t)) in Hc'.
  destruct (summarizeWithMistral w (c :: t)) as [ts|e] eqn:Em;
    try (exfalso; apply Hdiff; rewrite Hc, Hc'; reflexivity).
  exists raw, u, (c :: t), ts. rewrite Et. repeat split; auto. discriminate.
Qed.

Lemma database_consulted_after_completion_witness :
  exists raw u text ts,
    submitted_url Fixture.faithful_world = Some (JStr raw)
    /\ parse_http_url Fixture.faithful_world (trim raw) = Some u
    /\ scrapeReadableText Fixture.faithful_world (href u) = Ok text
    /\ text <> []
    /\ summarizeWithMistral Fixture.faithful_world text = Ok ts.
Proof.
  apply (database_consulted_after_completion
           Fixture.faithful_world Fixture.broken_store).
  vm_compute. discriminate.
Defined.

Lemma String_of_strings (num : str -> str) (points : list str) :
  traverse (String_ num) (map JStr points) = Ok points.
Proof.
  induction points as [|p ps IH]; [reflexivity|]. simpl.
  simpl in IH. now rewrite IH.
Qed.

(** X15.  With a database that returns the title and summary it was given
    and a serializer whose output reads back, the title and the bullets of
    a success answer are the title and the points assembled from the
    completion. *)
Theorem response_carries_the_completion (w : World) (s : Summary) (st : Z) :
  stores_payload w ->
  summary_reads_back w ->
  POST w = Ok (json (SummaryBody s) st) ->
  exists text ts,
    summarizeWithMistral w text = Ok ts
    /\ title s = fst ts
    /\ bullets s = snd ts.
Proof.
  intros Hstore Hread H. apply POST_summary_inv in H.
  destruct H as (raw & u & text & ts & reply & row & H).
  destruct H as (_ & _ & _ & _ & _ & Hm & Hi & _ & Hd & _ & ->).
  exists text, ts. split; [exact Hm|].
  destruct (Hstore _ _ _ Hi Hd) as [Ht Hs]. cbn [title bullets].
  split; [exact Ht|].
  unfold response_bullets. rewrite Hs. cbn [make_payload p_summary].
  change (JObj [(lit "summary_points", JArr (map JStr (snd ts)))])
    with (points_object (snd ts)).
  rewrite (Hread text ts Hm). unfold points_object.
  change (prop (Some (JObj [(lit "summary_points", JArr (map JStr (snd ts)))]))
               "summary_points")
    with (Some (JArr (map JStr (snd ts)))).
  unfold assemble_points. rewrite String_of_strings. cbn [bind].
  apply firstn_all2.
  now destruct (summarizeWithMistral_Ok_inv w text ts Hm) as [Hlen _].
Qed.

Lemma response_carries_the_completion_witness :
  exists text ts,
    summarizeWithMistral Fixture.faithful_world text = Ok ts
    /\ title Fixture.faithful_answer = fst ts
    /\ bullets Fixture.faithful_answer = snd ts.
Proof.
  apply (response_carries_the_completion
           Fixture.faithful_world Fixture.faithful_answer 200).
  - intros p reply row H Hd. injection H as <-. injection Hd as <-.
    split; reflexivity.
  - intros text ts H. vm_compute in H. injection H as <-.
    vm_compute. reflexivity.
  - vm_compute. reflexivity.
Defined.

(** ** HistoryStore, continued *)

Lemma filter_filter_implied {A} (keep p : A -> bool) (l : list A) :
  (forall x, p x = true -> keep x = true) ->
  filter keep (filter p l) = filter p l.
Proof.
  intros H. induction l as [|a l IH]; [reflexivity|]. simpl.
  destruct (p a) eqn:E; [|exact IH]. simpl. now rewrite (H a E), IH.
Qed.

Lemma filter_implied_filter {A} (keep p : A -> bool) (l : list A) :
  (forall x, p x = true -> keep x = true) ->
  filter p (filter keep l) = filter p l.
Proof.
  intros H. induction l as [|a l IH]; [reflexivity|]. simpl.
  destruct (keep a) eqn:E; simpl.
  - now rewrite IH.
  - destruct (p a) eqn:Ep; [|exact IH]. rewrite (H a Ep) in E. discriminate.
Qed.

Lemma kept_when_other_url (i : Z) (u : str) (x : Summary) :
  negb (str_eqb (url x) u) = true ->
  negb ((id x =? i) && str_eqb (url x) u) = true.
Proof.
  intros H. apply negb_true_iff in H. now rewrite H, andb_false_r.
Qed.

Lemma filter_all {A} (keep : A -> bool) (l : list A) :
  (forall x, In x l -> keep x = true) -> filter keep l = l.
Proof.
  induction l as [|a l IH]; intros H; [reflexivity|]. simpl.
  rewrite (H a (or_introl eq_refl)). f_equal. apply IH.
  intros x Hx. apply H. now right.
Qed.

Lemma remove_keeps_unique (items : list Summary) (i : Z) (u : str) :
  unique_urls items -> unique_urls (removeFromHistory items i u).
Proof. apply NoDup_map_filter. Qed.

Lemma upsert_keeps_unique (items : list Summary) (entry : Summary) :
  unique_urls items -> unique_urls (upsertByUrl items entry).
Proof.
  unfold unique_urls, upsertByUrl. intros H. cbn [map]. constructor.
  - intros Hin. apply in_map_iff in Hin as (x & Hx & Hin).
    apply filter_In in Hin as [_ Hne].
    apply negb_true_iff, str_eqb_neq in Hne. congruence.
  - now apply NoDup_map_filter.
Qed.

(** X16.  removeFromHistory drops exactly the entries that have both the
    id and the url asked for: an entry that differs in either stays, a
    list without such an entry is returned as it is, removing twice is
    removing once, and a history without repeated urls stays so. *)
Theorem removeFromHistory_exact (items : list Summary) (i : Z) (u : str) :
  (forall x, In x (removeFromHistory items i u)
             <-> In x items /\ (id x <> i \/ url x <> u))
  /\ ((forall x, In x items -> id x <> i \/ url x <> u) ->
      removeFromHistory items i u = items)
  /\ removeFromHistory (removeFromHistory items i u) i u
     = removeFromHistory items i u
  /\ (unique_urls items -> unique_urls (removeFromHistory items i u)).
Proof.
  assert (Hkeep : forall x,
            negb ((id x =? i) && str_eqb (url x) u) = true
            <-> id x <> i \/ url x <> u).
  { intros x. rewrite negb_true_iff, andb_false_iff, Z.eqb_neq, str_eqb_neq.
    tauto. }
  split; [|split; [|split]].
  - intros x. unfold removeFromHistory. rewrite filter_In, Hkeep. tauto.
  - intros H. apply filter_all. intros x Hx. apply Hkeep. now apply H.
  - apply filter_filter_implied. auto.
  - apply remove_keeps_unique.
Qed.

Lemma removeFromHistory_exact_witness :
  removeFromHistory [Sample.entry 1 "a"] 2 (lit "a") = [Sample.entry 1 "a"].
Proof.
  destruct (removeFromHistory_exact [Sample.entry 1 "a"] 2 (lit "a"))
    as (_ & H & _).
  apply H. intros x [<-|[]]. left. simpl. lia.
Defined.

Lemma unique_url_filter_self (items : list Summary) (s : Summary) :
  unique_urls items -> In s items ->
  forall x, In x items -> url x = url s -> x = s.
Proof.
  unfold unique_urls. induction items as [|a items IH]; intros Hu Hs x Hx He;
    [contradiction|].
  simpl in Hu. inversion Hu as [|? ? Hnotin Hrest]; subst.
  destruct Hs as [->|Hs], Hx as [->|Hx]; auto.
  - exfalso. apply Hnotin. rewrite <- He. now apply in_map.
  - exfalso. apply Hnotin. rewrite He. now apply in_map.
Qed.

Lemma filter_length_split {A} (p : A -> bool) (l : list A) :
  (List.length (filter p l) + List.length (filter (fun x => negb (p x)) l)
   = List.length l)%nat.
Proof.
  induction l as [|a l IH]; [reflexivity|]. simpl.
  destruct (p a); simpl; lia.
Qed.

Lemma unique_url_count (items : list Summary) (u : str) :
  unique_urls items ->
  List.length (filter (fun i => str_eqb (url i) u) items)
  = if existsb (fun i => str_eqb (url i) u) items then 1%nat else 0%nat.
Proof.
  unfold unique_urls. induction items as [|a items IH]; intros Hu;
    [reflexivity|].
  simpl in Hu. inversion Hu as [|? ? Hnotin Hrest]; subst.
  simpl. destruct (str_eqb (url a) u) eqn:E; simpl.
  - apply str_eqb_spec in E. subst u. f_equal.
    rewrite filter_none; [reflexivity|].
    intros x Hx. apply str_eqb_neq. intros He. apply Hnotin.
    rewrite <- He. now apply in_map.
  - now apply IH.
Qed.

(** X17.  In a history without repeated urls, deleting an entry that is in
    it removes that entry and no other: what is left is the history
    without the entry's url, one entry shorter. *)
Theorem delete_removes_one_entry (items : list Summary) (s : Summary) :
  unique_urls items -> In s items ->
  removeFromHistory items (id s) (url s)
  = filter (fun i => negb (str_eqb (url i) (url s))) items
  /\ S (List.length (removeFromHistory items (id s) (url s)))
     = List.length items
  /\ ~ In s (removeFromHistory items (id s) (url s)).
Proof.
  intros Hu Hs.
  assert (Heq : removeFromHistory items (id s) (url s)
                = filter (fun i => negb (str_eqb (url i) (url s))) items).
  { unfold removeFromHistory. apply filter_ext_in. intros x Hx.
    destruct (str_eqb (url x) (url s)) eqn:E; [|now rewrite andb_false_r].
    apply str_eqb_spec in E.
    rewrite (unique_url_filter_self items s Hu Hs x Hx E).
    now rewrite Z.eqb_refl. }
  split; [exact Heq|]. split.
  - rewrite Heq.
    pose proof (filter_length_split (fun i => str_eqb (url i) (url s)) items) as Hl.
    rewrite (unique_url_count items (url s) Hu) in Hl.
    assert (Hex : existsb (fun i => str_eqb (url i) (url s)) items = true).
    { apply existsb_exists. exists s. split; [exact Hs | apply str_eqb_refl]. }
    rewrite Hex in Hl. lia.
  - rewrite Heq. intros Hin. apply filter_In in Hin as [_ Hne].
    now rewrite str_eqb_refl in Hne.
Qed.

Lemma delete_removes_one_entry_witness :
  removeFromHistory [Sample.entry 1 "a"; Sample.entry 2 "b"] 2 (lit "b")
  = [Sample.entry 1 "a"].
Proof.
  destruct (delete_removes_one_entry
              [Sample.entry 1 "a"; Sample.entry 2 "b"] (Sample.entry 2 "b"))
    as [H _].
  - unfold unique_urls. simpl. constructor.
    + intros [H|[]]. discriminate.
    + constructor; [intros [] | constructor].
  - right. left. reflexivity.
  - exact H.
Defined.

(** X18.  Upserting an entry and then removing it leaves the history
    without the entry's url (the history itself when it had no entry with
    that url); removing an entry before upserting it changes nothing; and
    upserting twice is upserting once. *)
Theorem upsert_and_remove_compose (items : list Summary) (entry : Summary) :
  removeFromHistory (upsertByUrl items entry) (id entry) (url entry)
  = filter (fun i => negb (str_eqb (url i) (url entry))) items
  /\ ((forall x, In x items -> url x <> url entry) ->
      removeFromHistory (upsertByUrl items entry) (id entry) (url entry)
      = items)
  /\ upsertByUrl (removeFromHistory items (id entry) (url entry)) entry
     = upsertByUrl items entry
  /\ upsertByUrl (upsertByUrl items entry) entry = upsertByUrl items entry.
Proof.
  assert (H1 : removeFromHistory (upsertByUrl items entry) (id entry) (url entry)
               = filter (fun i => negb (str_eqb (url i) (url entry))) items).
  { unfold removeFromHistory, upsertByUrl. cbn [filter].
    rewrite Z.eqb_refl, str_eqb_refl. cbn [andb negb].
    apply filter_filter_implied. intros x. apply kept_when_other_url. }
  split; [exact H1|]. split; [|split].
  - intros Hfresh. rewrite H1. apply filter_all. intros x Hx.
    apply negb_true_iff, str_eqb_neq. now apply Hfresh.
  - unfold upsertByUrl, removeFromHistory. f_equal.
    apply filter_implied_filter. intros x. apply kept_when_other_url.
  - unfold upsertByUrl. f_equal. cbn [filter]. rewrite str_eqb_refl.
    cbn [negb]. apply filter_filter_implied. auto.
Qed.

Lemma upsert_and_remove_compose_witness :
  removeFromHistory (upsertByUrl [Sample.entry 1 "a"] (Sample.entry 2 "b"))
                    2 (lit "b")
  = [Sample.entry 1 "a"].
Proof.
  destruct (upsert_and_remove_compose [Sample.entry 1 "a"] (Sample.entry 2 "b"))
    as (_ & H & _).
  apply H. intros x [<-|[]]. discriminate.
Defined.

(** X19.  In a history without repeated urls, upserting an entry whose url
    is already there keeps the length, and upserting one whose url is new
    adds one; in any history the result is at most one entry longer. *)
Theorem upsertByUrl_length (items : list Summary) (entry : Summary) :
  (List.length (upsertByUrl items entry) <= S (List.length items))%nat
  /\ (unique_urls items ->
      List.length (upsertByUrl items entry)
      = if existsb (fun i => str_eqb (url i) (url entry)) items
        then List.length items
        else S (List.length items)).
Proof.
  pose proof (filter_length_split (fun i => str_eqb (url i) (url entry)) items)
    as Hl.
  unfold upsertByUrl. cbn [List.length]. split; [lia|].
  intros Hu. rewrite (unique_url_count items (url entry) Hu) in Hl.
  destruct (existsb _ items); lia.
Qed.

Lemma upsertByUrl_length_witness :
  List.length (upsertByUrl [Sample.entry 1 "a"; Sample.entry 2 "b"]
                           (Sample.entry 3 "b")) = 2%nat.
Proof.
  destruct (upsertByUrl_length [Sample.entry 1 "a"; Sample.entry 2 "b"]
                               (Sample.entry 3 "b")) as [_ H].
  apply H. unfold unique_urls. simpl. constructor.
  - intros [H1|[]]. discriminate.
  - constructor; [intros [] | constructor].
Defined.

Lemma saveLocalHistory_cases (stringify : list Summary -> str)
      (win : option LocalStorage) (items : list Summary) :
  saveLocalHistory stringify win items
  = Ok (match win with
        | None => None
        | Some ls =>
            match setItem_error ls (stringify items) with
            | Some _ => Some ls
            | None =>
                Some {| stored := Some (stringify items);
                        getItem_error := getItem_error ls;
                        setItem_error := setItem_error ls |}
            end
        end).
Proof.
  unfold saveLocalHistory, setItem. destruct win as [ls|]; [|reflexivity].
  destruct (setItem_error ls (stringify items)); reflexivity.
Qed.

(** X20.  saveLocalHistory never raises.  Without a window it does
    nothing; a write that the storage refuses leaves the storage as it
    was; after a write that succeeds, loadLocalHistory returns the array
    that the written text denotes when reading the storage succeeds, and
    the empty list when reading it throws. *)
Theorem save_then_load (stringify : list Summary -> str)
        (win : option LocalStorage) (items : list Summary) :
  (exists win', saveLocalHistory stringify win items = Ok win')
  /\ (win = None -> saved stringify win items = None)
  /\ (forall ls e,
         win = Some ls -> setItem_error ls (stringify items) = Some e ->
         saved stringify win items = win)
  /\ (forall ls entries,
         win = Some ls ->
         setItem_error ls (stringify items) = None ->
         getItem_error ls = None ->
         JSON_parse (stringify items) = Some (JArr entries) ->
         loadLocalHistory (storage_of (saved stringify win items))
         = Ok entries)
  /\ (forall ls e,
         win = Some ls ->
         setItem_error ls (stringify items) = None ->
         getItem_error ls = Some e ->
         loadLocalHistory (storage_of (saved stringify win items))
         = Ok []).
Proof.
  unfold saved. rewrite saveLocalHistory_cases.
  split; [eexists; reflexivity|]. split; [now intros ->|]. split; [|split].
  - intros ls e -> He. now rewrite He.
  - intros ls entries -> Hs Hg Hp. rewrite Hs.
    unfold storage_of, getItem. cbn [getItem_error stored]. rewrite Hg.
    unfold loadLocalHistory, loadLocalHistory_try. cbn [bind].
    destruct (stringify items) as [|c r] eqn:E; [discriminate|].
    now rewrite Hp.
  - intros ls e -> Hs Hg. rewrite Hs.
    unfold storage_of, getItem. cbn [getItem_error stored]. rewrite Hg.
    reflexivity.
Qed.

Lemma save_then_load_witness :
  loadLocalHistory
    (storage_of (saved Fixture.one_stringify (Some Fixture.empty_storage)
                       [Sample.entry 7 "a"]))
  = Ok [JNum (lit "7")].
Proof.
  destruct (save_then_load Fixture.one_stringify (Some Fixture.empty_storage)
                           [Sample.entry 7 "a"]) as (_ & _ & _ & H & _).
  apply (H Fixture.empty_storage); reflexivity.
Defined.

(** ** The page *)

Lemma looks_like_host_prefixed (value : str) :
  looks_like_host (HTTPS_PREFIX ++ value) = false.
Proof. reflexivity. Qed.

(** X21.  ensureProtocol returns the value or the value behind https://,
    the latter only for a value that does not parse and starts like a
    host name; an empty or parsing value is returned as it is; and
    applying it twice is applying it once, whatever the URL parser. *)
Theorem ensureProtocol_idempotent (parses : str -> bool) (value : str) :
  ensureProtocol parses (ensureProtocol parses value)
  = ensureProtocol parses value
  /\ (ensureProtocol parses value = value
      \/ ensureProtocol parses value = HTTPS_PREFIX ++ value
         /\ parses value = false /\ looks_like_host value = true)
  /\ (value = [] \/ parses value = true ->
      ensureProtocol parses value = value).
Proof.
  destruct value as [|c v]; [repeat split; auto|].
  destruct (parses (c :: v)) eqn:Hp;
    [|destruct (looks_like_host (c :: v)) eqn:Hl].
  - assert (E : ensureProtocol parses (c :: v) = c :: v)
      by (unfold ensureProtocol; cbn [truthy negb]; now rewrite Hp).
    rewrite !E. repeat split; auto.
  - assert (E : ensureProtocol parses (c :: v) = HTTPS_PREFIX ++ c :: v)
      by (unfold ensureProtocol; cbn [truthy negb]; now rewrite Hp, Hl).
    rewrite !E. split; [|split].
    + unfold ensureProtocol.
      change (truthy (HTTPS_PREFIX ++ c :: v)) with true. cbn [negb].
      destruct (parses (HTTPS_PREFIX ++ c :: v)); [reflexivity|].
      now rewrite looks_like_host_prefixed.
    + right. auto.
    + intros [H|H]; congruence.
  - assert (E : ensureProtocol parses (c :: v) = c :: v)
      by (unfold ensureProtocol; cbn [truthy negb]; now rewrite Hp, Hl).
    rewrite !E. repeat split; auto.
Qed.

Lemma ensureProtocol_idempotent_witness :
  ensureProtocol Fixture.https_only (lit "https://example.com")
  = lit "https://example.com".
Proof.
  destruct (ensureProtocol_idempotent Fixture.https_only
                                      (lit "https://example.com"))
    as (_ & _ & H).
  apply H. right. reflexivity.
Defined.

Lemma handleSummarize_cases (b : Browser) (p : Page) :
  (exists msg, handleSummarize b p = summarize_failed p msg)
  \/ (exists res payload,
         api_summarize b (url_field p) = Ok res /\ api_ok res = true
         /\ api_json res = Ok payload
         /\ handleSummarize b p
            = {| url_field := url_field p;
                 isSummarizing := false;
                 error_shown := None;
                 latestSummary := Some (title payload, bullets payload);
                 localHistory := upsertByUrl (localHistory p) payload;
                 isExpanded := false;
                 toast := toast p;
                 window_storage :=
                   saved (stringify_history b) (window_storage p)
                         (upsertByUrl (localHistory p) payload) |}).
Proof.
  unfold handleSummarize.
  destruct (api_summarize b (url_field p)) as [res|e];
    [|left; eexists; reflexivity].
  destruct (api_ok res) eqn:Hok; [|left; eexists; reflexivity]. cbn [negb].
  destruct (api_json res) as [payload|e] eqn:Hj;
    [|left; eexists; reflexivity].
  right. exists res, payload.
  split; [reflexivity|]. split; [exact Hok|]. split; [exact Hj|].
  now destruct payload.
Qed.

(** X22.  handleSummarize always ends with the spinner off.  When it ends
    with an error, the history, the stored history and the latest summary
    are as before; and an answer that is not ok is reported with the fixed
    message (Échec de la génération du résumé), whatever its body says. *)
Theorem handleSummarize_failure (b : Browser) (p : Page) :
  isSummarizing (handleSummarize b p) = false
  /\ (forall msg,
         error_shown (handleSummarize b p) = Some msg ->
         localHistory (handleSummarize b p) = localHistory p
         /\ window_storage (handleSummarize b p) = window_storage p
         /\ latestSummary (handleSummarize b p) = latestSummary p)
  /\ (forall res,
         api_summarize b (url_field p) = Ok res -> api_ok res = false ->
         error_shown (handleSummarize b p) = Some EchecGeneration).
Proof.
  split; [|split].
  - destruct (handleSummarize_cases b p) as [(msg & ->)|(res & pl & _ & _ & _ & ->)];
      reflexivity.
  - intros msg.
    destruct (handleSummarize_cases b p) as [(m & ->)|(res & pl & _ & _ & _ & ->)].
    + intros _. repeat split.
    + discriminate.
  - intros res Hres Hok. unfold handleSummarize. now rewrite Hres, Hok.
Qed.

Lemma handleSummarize_failure_witness :
  error_shown
    (handleSummarize
       (Fixture.browser (Ok {| api_ok := false; api_json := Ok Sample.answer |}))
       (Fixture.page "https://example.com" []))
  = Some EchecGeneration.
Proof.
  destruct (handleSummarize_failure
              (Fixture.browser (Ok {| api_ok := false; api_json := Ok Sample.answer |}))
              (Fixture.page "https://example.com" [])) as (_ & _ & H).
  apply (H {| api_ok := false; api_json := Ok Sample.answer |}); reflexivity.
Defined.

(** X23.  After an ok answer with a payload, the error is cleared, the
    latest summary is the payload's title and bullets and is shown
    collapsed, the history is the old one upserted with the payload (which
    is now its first entry, and repeated urls are not introduced), and a
    storage that accepts the write holds the serialization of the new
    history. *)
Theorem handleSummarize_success
        (b : Browser) (p : Page) (res : ApiResponse) (payload : Summary) :
  api_summarize b (url_field p) = Ok res ->
  api_ok res = true ->
  api_json res = Ok payload ->
  let p' := handleSummarize b p in
  error_shown p' = None
  /\ latestSummary p' = Some (title payload, bullets payload)
  /\ isExpanded p' = false
  /\ localHistory p' = upsertByUrl (localHistory p) payload
  /\ nth_error (localHistory p') 0 = Some payload
  /\ (unique_urls (localHistory p) -> unique_urls (localHistory p'))
  /\ (forall ls,
         window_storage p = Some ls ->
         setItem_error ls (stringify_history b (localHistory p')) = None ->
         exists ls',
           window_storage p' = Some ls'
           /\ stored ls' = Some (stringify_history b (localHistory p'))).
Proof.
  intros Hres Hok Hj p'.
  assert (Hp' : p' = {| url_field := url_field p;
                        isSummarizing := false;
                        error_shown := None;
                        latestSummary := Some (title payload, bullets payload);
                        localHistory := upsertByUrl (localHistory p) payload;
                        isExpanded := false;
                        toast := toast p;
                        window_storage :=
                          saved (stringify_history b) (window_storage p)
                                (upsertByUrl (localHistory p) payload) |}).
  { unfold p', handleSummarize. rewrite Hres, Hok. cbn [negb]. rewrite Hj.
    now destruct payload. }
  rewrite Hp'. cbn [error_shown latestSummary isExpanded localHistory window_storage].
  repeat split.
  - apply upsert_keeps_unique.
  - intros ls Hw Hs. unfold saved. rewrite saveLocalHistory_cases, Hw, Hs.
    eexists. split; reflexivity.
Qed.

Lemma handleSummarize_success_witness :
  localHistory
    (handleSummarize
       (Fixture.browser (Ok {| api_ok := true; api_json := Ok Sample.answer |}))
       (Fixture.page "https://example.com" [Sample.entry 1 "a"]))
  = upsertByUrl [Sample.entry 1 "a"] Sample.answer.
Proof.
  destruct (handleSummarize_success
              (Fixture.browser (Ok {| api_ok := true; api_json := Ok Sample.answer |}))
              (Fixture.page "https://example.com" [Sample.entry 1 "a"])
              {| api_ok := true; api_json := Ok Sample.answer |} Sample.answer
              eq_refl eq_refl eq_refl) as (_ & _ & _ & H & _).
  exact H.
Defined.

(** X24.  When the api answer is what the route handler answered: either
    the handler failed, and then the page shows the fixed failure message,
    never the handler's own, and keeps its history; or the handler
    succeeded with a summary, which becomes the first entry of the history
    and the latest summary, has at most three bullets, is listed in full
    when collapsed, and does not get the buttons Afficher plus and Copier
    tout. *)
Theorem handleSummarize_with_route
        (w : World) (b : Browser) (p : Page) (res : ApiResponse) :
  api_summarize b (url_field p) = Ok res ->
  serves w res ->
  let p' := handleSummarize b p in
  (exists m st, POST w = Ok (json (ErrorBody m) st)
                /\ error_shown p' = Some EchecGeneration
                /\ localHistory p' = localHistory p)
  \/ (exists s, POST w = Ok (json (SummaryBody s) 200)
                /\ error_shown p' = None
                /\ nth_error (localHistory p') 0 = Some s
                /\ latestSummary p' = Some (title s, bullets s)
                /\ shows_more_controls (bullets s) = false
                /\ visible_bullets (isExpanded p') (bullets s) = bullets s).
Proof.
  intros Hres (r & Hpost & Hok & Hjson) p'.
  assert (Hfit : status_fits r).
  { rewrite POST_of_try in Hpost. destruct (POST_try w) as [r'|e] eqn:E.
    - injection Hpost as <-. now apply (POST_try_fits w).
    - injection Hpost as <-. right. right. reflexivity. }
  destruct r as [bd st]. unfold status_fits in Hfit.
  cbn [body http_status] in *. destruct bd as [m|s].
  - left. exists m, st. split; [exact Hpost|].
    assert (Hno : api_ok res = false).
    { rewrite Hok. destruct Hfit as [-> | [-> | ->]]; reflexivity. }
    unfold p', handleSummarize. rewrite Hres, Hno. split; reflexivity.
  - right. subst st. exists s. split; [exact Hpost|].
    assert (Hyes : api_ok res = true) by (rewrite Hok; reflexivity).
    specialize (Hjson s eq_refl).
    assert (Hlen : (List.length (bullets s) <= 3)%nat).
    { apply POST_summary_inv in Hpost.
      destruct Hpost as (raw & u & text & ts & reply & row & H).
      destruct H as (_ & _ & _ & _ & _ & _ & _ & _ & _ & _ & ->).
      cbn [bullets]. apply response_bullets_length. }
    assert (Hp' : p' = {| url_field := url_field p;
                          isSummarizing := false;
                          error_shown := None;
                          latestSummary := Some (title s, bullets s);
                          localHistory := upsertByUrl (localHistory p) s;
                          isExpanded := false;
                          toast := toast p;
                          window_storage :=
                            saved (stringify_history b) (window_storage p)
                                  (upsertByUrl (localHistory p) s) |}).
    { unfold p', handleSummarize. rewrite Hres, Hyes. cbn [negb]. rewrite Hjson.
      now destruct s. }
    rewrite Hp'. cbn [error_shown latestSummary isExpanded localHistory].
    repeat split.
    + unfold shows_more_controls. apply Nat.ltb_ge. exact Hlen.
    + unfold visible_bullets. now apply firstn_all2.
Qed.

Lemma handleSummarize_with_route_witness :
  let p' := handleSummarize
              (Fixture.browser (Ok {| api_ok := false;
                                      api_json := Throw NonError |}))
              (Fixture.page "ftp://example.com" []) in
  (exists m st, POST (Sample.request (lit "ftp://example.com"))
                = Ok (json (ErrorBody m) st)
                /\ error_shown p' = Some EchecGeneration
                /\ localHistory p' = localHistory (Fixture.page "ftp://example.com" []))
  \/ (exists s, POST (Sample.request (lit "ftp://example.com"))
                = Ok (json (SummaryBody s) 200)
                /\ error_shown p' = None
                /\ nth_error (localHistory p') 0 = Some s
                /\ latestSummary p' = Some (title s, bullets s)
                /\ shows_more_controls (bullets s) = false
                /\ visible_bullets (isExpanded p') (bullets s) = bullets s).
Proof.
  apply (handleSummarize_with_route
           (Sample.request (lit "ftp://example.com"))
           (Fixture.browser (Ok {| api_ok := false; api_json := Throw NonError |}))
           (Fixture.page "ftp://example.com" [])
           {| api_ok := false; api_json := Throw NonError |}).
  - reflexivity.
  - exists (json (ErrorBody UrlInvalide) 400).
    split; [reflexivity|]. split; [reflexivity|]. discriminate.
Defined.

Lemma page_step_keeps_unique (p : Page) (ev : page_event) :
  unique_urls (localHistory p) -> unique_urls (localHistory (page_step p ev)).
Proof.
  intros Hu. destruct ev as [value|parses|b|b s]; try exact Hu.
  - cbn [page_step].
    destruct (handleSummarize_cases b p) as [(msg & ->)|(res & pl & _ & _ & _ & ->)].
    + exact Hu.
    + cbn [localHistory]. now apply upsert_keeps_unique.
  - cbn [page_step handleDelete localHistory]. now apply remove_keeps_unique.
Qed.

(** X25.  Whatever the user does (typing, leaving the field, summarizing,
    deleting) and whatever the browser answers, a history without repeated
    urls keeps having none. *)
Theorem history_stays_unique (evs : list page_event) (p : Page) :
  unique_urls (localHistory p) ->
  unique_urls (localHistory (page_run p evs)).
Proof.
  unfold page_run. revert p. induction evs as [|ev evs IH]; intros p Hu;
    [exact Hu|].
  cbn [fold_left]. apply IH. now apply page_step_keeps_unique.
Qed.

Lemma history_stays_unique_witness :
  unique_urls
    (localHistory
       (page_run (Fixture.page "example.com" [])
          [Blurred Fixture.https_only;
           Summarize (Fixture.browser
                        (Ok {| api_ok := true; api_json := Ok Sample.answer |}));
           Summarize (Fixture.browser
                        (Ok {| api_ok := true; api_json := Ok Sample.answer |}));
           Delete (Fixture.browser (Throw NonError)) Sample.answer])).
Proof.
  apply history_stays_unique. constructor.
Defined.

Lemma recovery_errors_witness :
  extractFirstJsonObject (lit "Je ne peux pas lire cette page.")
  = Throw (Error_ JsonIntrouvable).
Proof.
  destruct (recovery_errors (lit "Je ne peux pas lire cette page.")) as [H _].
  apply H. split; [vm_compute; reflexivity | vm_compute; intuition discriminate].
Defined.
